(** * Krypton VM: stack machine with a tracked heap and a mark-and-sweep collector

    Shallow embedding of [src/config/end_stup.cpp]: the object system, the
    instruction set, [GarbageCollector], [KryptonVM], the [Assembler] and the
    program built in [main].

    - a [double] is an IEEE-754 binary64 number: Rocq's primitive [float];
    - a [GCObject*] is an address ([nat], [nullptr] is 0); the free store is a
      finite map from addresses to objects, [new] picks an unused non-null
      address and [delete] removes the cell;
    - a [std::vector] is a list in the vector's order ([push_back] appends at
      the end, [back] is the last element);
    - [int ip] is a [Z]; the conversion to [size_t] of the loop test and the
      overflow of [ip++] are written out;
    - [std::cout] is the list of lines written so far;
    - a member function is a state transformer that returns a value, throws a
      C++ exception, or has undefined behaviour. *)

From Stdlib Require Import Floats ZArith Lia.
From stdpp Require Import gmap strings list fin_maps.

Open Scope Z_scope.

(** ** 1. Data types and object system *)

Abbreviation ptr := nat (only parsing).
Definition nullptr : ptr := 0%nat.

(** The two concrete classes derived from [GCObject], with their [value]. *)
Inductive Payload :=
| NumberObj (value : float)
| StringObj (value : string).

(** A heap cell: the [marked] field of the [GCObject] base and the object of
    the derived class. *)
Record GCObject := mkGCObject { marked : bool; payload : Payload }.

Definition set_marked (b : bool) (o : GCObject) : GCObject :=
  {| marked := b; payload := payload o |}.

(** ** 2. Instruction set *)

Inductive OpCode :=
| OP_PUSH_NUM | OP_PUSH_STR | OP_ADD | OP_SUB | OP_MUL | OP_DIV
| OP_PRINT | OP_JUMP | OP_JUMP_IF_FALSE | OP_HALT.

(** [std::variant<double, std::string, int>] *)
Inductive Operand :=
| in_double (d : float)
| in_string (s : string)
| in_int (i : Z).

Record Instruction := mkInstruction { code : OpCode; operand : Operand }.

(** ** Machine state, exceptions, output *)

Inductive Exception :=
| runtime_error (what : string)
| bad_variant_access.

(** One line written to [std::cout]. *)
Inductive Line :=
| LineStarted                 (* --- Krypton VM Execution Started --- *)
| LinePrint (o : Payload)     (* >>> followed by the object's print() *)
| LineHalted                  (* [VM] Halted. *)
| LineGC.                     (* [GC] Collection cycle finished. *)

Record State := mkState {
  bytecode : list Instruction;   (* KryptonVM::bytecode *)
  stack : list ptr;              (* KryptonVM::stack *)
  objects : list ptr;            (* KryptonVM::gc.objects *)
  ip : Z;                        (* KryptonVM::ip *)
  heap : gmap nat GCObject;      (* the free store *)
  cout : list Line               (* std::cout *)
}.

Definition with_bytecode (p : list Instruction) (s : State) : State :=
  mkState p (stack s) (objects s) (ip s) (heap s) (cout s).
Definition with_stack (st : list ptr) (s : State) : State :=
  mkState (bytecode s) st (objects s) (ip s) (heap s) (cout s).
Definition with_objects (os : list ptr) (s : State) : State :=
  mkState (bytecode s) (stack s) os (ip s) (heap s) (cout s).
Definition with_ip (i : Z) (s : State) : State :=
  mkState (bytecode s) (stack s) (objects s) i (heap s) (cout s).
Definition with_heap (h : gmap nat GCObject) (s : State) : State :=
  mkState (bytecode s) (stack s) (objects s) (ip s) h (cout s).
Definition with_cout (c : list Line) (s : State) : State :=
  mkState (bytecode s) (stack s) (objects s) (ip s) (heap s) c.

(** Result of a member function: a value and the new state, an exception
    leaving the function with the state at the throw, or undefined behaviour. *)
Inductive Result (A : Type) :=
| Ok (a : A) (s : State)
| Throw (e : Exception) (s : State)
| UB.
Arguments Ok {A} a s.
Arguments Throw {A} e s.
Arguments UB {A}.

Definition M (A : Type) : Type := State -> Result A.

Definition ret {A} (a : A) : M A := fun s => Ok a s.

Definition bind {A B} (m : M A) (k : A -> M B) : M B := fun s =>
  match m s with
  | Ok a s' => k a s'
  | Throw e s' => Throw e s'
  | UB => UB
  end.

Notation "x <- m ;; k" := (bind m (fun x => k))
  (at level 20, m at level 99, k at level 200, only parsing).
Notation "m ;; k" := (bind m (fun _ => k))
  (at level 100, k at level 200, only parsing, right associativity).

Definition throw {A} (e : Exception) : M A := fun s => Throw e s.

Definition print_line (l : Line) : M unit := fun s =>
  Ok tt (with_cout (cout s ++ [l]) s).

(** ** 3. Garbage collector (mark and sweep) *)

(** [objects.push_back(obj)] *)
Definition track (obj : ptr) : M unit := fun s =>
  Ok tt (with_objects (objects s ++ [obj]) s).

(** Mark phase: [for (auto* root : roots) if (root) root->marked = true;]
    [None] is a write through a pointer to no live object. *)
Fixpoint mark (roots : list ptr) (h : gmap nat GCObject) : option (gmap nat GCObject) :=
  match roots with
  | [] => Some h
  | root :: rest =>
      if decide (root = nullptr) then mark rest h
      else match h !! root with
           | Some o => mark rest (<[root := set_marked true o]> h)
           | None => None
           end
  end.

(** Sweep phase, one iteration per element of [objects] from [begin()]: an
    unmarked object is deleted and erased from the vector, a marked one has
    its mark reset and stays. Returns the vector and the free store at the
    end of the loop; [None] is a read through a pointer to no live object. *)
Fixpoint sweep (objs : list ptr) (h : gmap nat GCObject)
  : option (list ptr * gmap nat GCObject) :=
  match objs with
  | [] => Some ([], h)
  | it :: rest =>
      match h !! it with
      | None => None
      | Some o =>
          if negb (marked o) then sweep rest (delete it h)
          else match sweep rest (<[it := set_marked false o]> h) with
               | Some (kept, h') => Some (it :: kept, h')
               | None => None
               end
      end
  end.

(** [GarbageCollector::collect(std::vector<GCObject*>& roots)] *)
Definition collect (roots : list ptr) : M unit := fun s =>
  match mark roots (heap s) with
  | None => UB
  | Some h1 =>
      match sweep (objects s) h1 with
      | None => UB
      | Some (objs, h2) =>
          print_line LineGC (with_heap h2 (with_objects objs s))
      end
  end.

(** [GarbageCollector::~GarbageCollector]:
    [for (auto* obj : objects) delete obj;]. [delete] of a null pointer does
    nothing; [None] is a [delete] of a pointer to no live object. *)
Fixpoint destroy (objs : list ptr) (h : gmap nat GCObject)
  : option (gmap nat GCObject) :=
  match objs with
  | [] => Some h
  | obj :: rest =>
      if decide (obj = nullptr) then destroy rest h
      else match h !! obj with
           | Some _ => destroy rest (delete obj h)
           | None => None
           end
  end.

(** ** 4. The virtual machine *)

(** [new T(...)]: a cell at an address that is neither null nor in use, with
    [marked = false] from the default member initialiser. *)
Definition new_addr (h : gmap nat GCObject) : ptr := fresh ({[nullptr]} ∪ dom h).

Definition new_ (o : Payload) : M ptr := fun s =>
  let p := new_addr (heap s) in
  Ok p (with_heap (<[p := mkGCObject false o]> (heap s)) s).

(** [KryptonVM::push] *)
Definition push (obj : ptr) : M unit := fun s =>
  track obj (with_stack (stack s ++ [obj]) s).

(** [KryptonVM::pop] *)
Definition pop : M ptr := fun s =>
  match last (stack s) with
  | None => Throw (runtime_error "Stack Underflow") s
  | Some obj => Ok obj (with_stack (removelast (stack s)) s)
  end.

(** [KryptonVM::loadProgram] *)
Definition loadProgram (program : list Instruction) (s : State) : State :=
  with_bytecode program s.

(** [std::get<double>] and [std::get<std::string>] on the operand. *)
Definition get_double (v : Operand) : M float :=
  match v with in_double d => ret d | _ => throw bad_variant_access end.
Definition get_string (v : Operand) : M string :=
  match v with in_string t => ret t | _ => throw bad_variant_access end.

(** [static_cast<NumberObj*>(p)->value]: reading a [StringObj] (or a dead
    cell) as a [NumberObj] is undefined. *)
Definition number_value (p : ptr) : M float := fun s =>
  match heap s !! p with
  | Some (mkGCObject _ (NumberObj v)) => Ok v s
  | _ => UB
  end.

(** [std::cout << ">>> "; obj->print(); std::cout << std::endl;] *)
Definition print_obj (p : ptr) : M unit := fun s =>
  match heap s !! p with
  | Some o => print_line (LinePrint (payload o)) s
  | None => UB
  end.

(** How the [switch] is left: by [break], or by the [return] of [OP_HALT]. *)
Inductive Flow := Break | Return.

(** The [switch (inst.code)] of [run]. *)
Definition exec (inst : Instruction) : M Flow :=
  match code inst with
  | OP_PUSH_NUM =>
      d <- get_double (operand inst) ;;
      o <- new_ (NumberObj d) ;;
      push o ;;
      ret Break
  | OP_PUSH_STR =>
      t <- get_string (operand inst) ;;
      o <- new_ (StringObj t) ;;
      push o ;;
      ret Break
  | OP_ADD =>
      b <- pop ;;
      a <- pop ;;
      va <- number_value a ;;
      vb <- number_value b ;;
      o <- new_ (NumberObj (va + vb)%float) ;;
      push o ;;
      ret Break
  | OP_PRINT =>
      obj <- pop ;;
      print_obj obj ;;
      ret Break
  | OP_HALT =>
      print_line LineHalted ;;
      ret Return
  | _ => ret Break
  end.

Definition INT_MAX : Z := 2147483647.

(** Conversion of the [int] to [size_t] in [ip < bytecode.size()] and in
    [bytecode[ip]]. *)
Definition to_size_t (i : Z) : Z := i mod 2 ^ 64.

Definition size (s : State) : Z := Z.of_nat (length (bytecode s)).

(** [ip < bytecode.size()] *)
Definition in_program (s : State) : bool := to_size_t (ip s) <? size s.

(** [const auto& inst = bytecode[ip];] *)
Definition fetch : M Instruction := fun s =>
  match bytecode s !! Z.to_nat (to_size_t (ip s)) with
  | Some inst => Ok inst s
  | None => UB
  end.

(** [ip++]: signed overflow is undefined. *)
Definition incr_ip : M unit := fun s =>
  if decide (ip s = INT_MAX) then UB else Ok tt (with_ip (ip s + 1) s).

(** [if (ip % 5 == 0) gc.collect(stack);] *)
Definition maybe_collect : M unit := fun s =>
  if Z.rem (ip s) 5 =? 0 then collect (stack s) s else Ok tt s.

(** The body of the [while] loop. *)
Definition loop_body : M Flow :=
  inst <- fetch ;;
  f <- exec inst ;;
  match f with
  | Return => ret Return
  | Break => incr_ip ;; maybe_collect ;; ret Break
  end.

(** The [while] loop, at most [fuel] tests of its condition; [None] when the
    fuel is used up. *)
Fixpoint run_loop (fuel : nat) (s : State) : option (Result unit) :=
  match fuel with
  | O => None
  | S fuel' =>
      if in_program s then
        match loop_body s with
        | Ok Break s' => run_loop fuel' s'
        | Ok Return s' => Some (Ok tt s')
        | Throw e s' => Some (Throw e s')
        | UB => Some UB
        end
      else Some (Ok tt s)
  end.

(** [KryptonVM::run]. Each iteration that continues increments [ip], so one
    test per instruction of the program and a last one are enough
    ([run_returns]). *)
Definition run (s : State) : option (Result unit) :=
  match print_line LineStarted s with
  | Ok _ s' => run_loop (S (length (bytecode s'))) s'
  | Throw e s' => Some (Throw e s')
  | UB => Some UB
  end.

(** A newly constructed [KryptonVM], nothing allocated, nothing written. *)
Definition KryptonVM_new : State := mkState [] [] [] 0 ∅ [].

(** ** 5. Assembler *)

Definition emit (c : OpCode) (program : list Instruction) : list Instruction :=
  program ++ [mkInstruction c (in_double 0)].
Definition emit_double (c : OpCode) (val : float) (program : list Instruction)
  : list Instruction :=
  program ++ [mkInstruction c (in_double val)].
Definition emit_string (c : OpCode) (val : string) (program : list Instruction)
  : list Instruction :=
  program ++ [mkInstruction c (in_string val)].

(** ** 6. The program of [main] *)

Definition main_program : list Instruction :=
  emit OP_HALT
    (emit OP_PRINT
      (emit OP_PRINT
        (emit_string OP_PUSH_STR "Hasil Kalkulasi: "
          (emit OP_MUL
            (emit_double OP_PUSH_NUM 2
              (emit OP_ADD
                (emit_double OP_PUSH_NUM 20
                  (emit_double OP_PUSH_NUM 10 [])))))))).

(** * Vocabulary of the properties *)

(** The mark bit of the object at [p], [false] where there is none. *)
Definition is_marked (h : gmap nat GCObject) (p : ptr) : bool :=
  match h !! p with Some o => marked o | None => false end.

(** The invariant of the machine: address 0 holds no object; the tracked
    pointers are distinct, live and unmarked; every stack entry is tracked. *)
Definition vm_inv (s : State) : Prop :=
  heap s !! nullptr = None ∧
  NoDup (objects s) ∧
  Forall (λ p, is_Some (heap s !! p) ∧ is_marked (heap s) p = false) (objects s) ∧
  Forall (λ p, p ∈ objects s) (stack s).

Global Instance vm_inv_dec (s : State) : Decision (vm_inv s).
Proof. unfold vm_inv. apply _. Defined.

(** [ip] is a non-negative [int]. *)
Definition ip_ok (s : State) : Prop := 0 ≤ ip s ≤ INT_MAX.

(** The state after [n] iterations of the loop of [run] that each ran their
    instruction to the [break] of the [switch], the increment and the
    collection test; [None] when one of them does not (the loop condition is
    false, [OP_HALT] returns, an exception leaves [run], or the behaviour is
    undefined). *)
Fixpoint iterate (n : nat) (s : State) : option State :=
  match n with
  | O => Some s
  | S n' =>
      if in_program s then
        match loop_body s with
        | Ok Break s' => iterate n' s'
        | _ => None
        end
      else None
  end.

(** The states a machine can be in between the calls of its public members:
    a new machine, after [loadProgram], and after a [run] that returned or
    threw (the exception is caught by the caller, as in [main], and the
    machine is still there). *)
Inductive reachable : State → Prop :=
| reachable_new : reachable KryptonVM_new
| reachable_loadProgram program s :
    reachable s → reachable (loadProgram program s)
| reachable_run_returned s s' :
    reachable s → run s = Some (Ok tt s') → reachable s'
| reachable_run_threw s e s' :
    reachable s → run s = Some (Throw e s') → reachable s'.

(** Number of collection cycles reported on [std::cout]. *)
Definition is_gc_line (l : Line) : bool :=
  match l with LineGC => true | _ => false end.

Definition gc_cycles (out : list Line) : nat :=
  length (filter (λ l, is_gc_line l) out).

(** Number of calls of [pop] in the [switch] case of an opcode. *)
Definition pops (c : OpCode) : nat :=
  match c with
  | OP_ADD => 2
  | OP_PRINT => 1
  | _ => 0
  end.

(** The state after [push(new T(...))] for an object [x]. *)
Definition alloc_push (x : Payload) (s : State) : State :=
  let p := new_addr (heap s) in
  mkState (bytecode s) (stack s ++ [p]) (objects s ++ [p]) (ip s)
    (<[p := mkGCObject false x]> (heap s)) (cout s).

(** Every live object is tracked. *)
Definition no_leak (s : State) : Prop :=
  ∀ p, is_Some (heap s !! p) → p ∈ objects s.

(** The invariant with the order of the stack and the absence of leaks:
    the stack is the tracked vector with some entries left out, and the
    free store holds tracked objects only. *)
Definition machine_inv (s : State) : Prop :=
  vm_inv s ∧ stack s `sublist_of` objects s ∧ no_leak s.

(** Every object in the free store is a [NumberObj]. *)
Definition all_numbers (s : State) : Prop :=
  ∀ p o, heap s !! p = Some o → ∃ v, payload o = NumberObj v.

(** No instruction of the program has opcode [c]. *)
Definition without (c : OpCode) (program : list Instruction) : Prop :=
  Forall (λ inst, code inst ≠ c) program.

(** No [OP_ADD] of the program can meet a [StringObj]: there is no string
    in the free store and no [OP_PUSH_STR] in the program, or there is no
    [OP_ADD] in the program. *)
Definition no_confusion (s : State) : Prop :=
  (all_numbers s ∧ without OP_PUSH_STR (bytecode s)) ∨
  without OP_ADD (bytecode s).

(** What run has printed, the reports of the collector left out. *)
Definition printed (out : list Line) : list Line :=
  filter (λ l, ¬ is_gc_line l) out.

(** Sums of numbers, their value in binary64 arithmetic, and their program
    in postfix order, emitted with the [Assembler] after [program]. *)
Inductive Expr :=
| Num (v : float)
| Add (e1 e2 : Expr).

Fixpoint eval (e : Expr) : float :=
  match e with
  | Num v => v
  | Add e1 e2 => (eval e1 + eval e2)%float
  end.

Fixpoint assemble (e : Expr) (program : list Instruction) : list Instruction :=
  match e with
  | Num v => emit_double OP_PUSH_NUM v program
  | Add e1 e2 => emit OP_ADD (assemble e2 (assemble e1 program))
  end.

(** ** Programs and states the properties are evaluated on *)

(** Four pushes, then [OP_HALT] as the fifth instruction. *)
Definition halt_fifth_program : list Instruction :=
  emit OP_HALT
    (emit_double OP_PUSH_NUM 4
      (emit_double OP_PUSH_NUM 3
        (emit_double OP_PUSH_NUM 2
          (emit_double OP_PUSH_NUM 1 [])))).

(** 1 / 0, printed. *)
Definition div_by_zero_program : list Instruction :=
  emit OP_HALT
    (emit OP_PRINT
      (emit OP_DIV
        (emit_double OP_PUSH_NUM 0
          (emit_double OP_PUSH_NUM 1 [])))).

(** A lone [OP_ADD]. *)
Definition lone_add_program : list Instruction := emit OP_ADD [].

(** The sum 10 + 20 of [main], and the program that prints a sum. *)
Definition thirty : Expr := Add (Num 10) (Num 20).

Definition print_program (e : Expr) : list Instruction :=
  emit OP_HALT (emit OP_PRINT (assemble e [])).

(** A string and a number, added. *)
Definition string_add_program : list Instruction :=
  emit OP_ADD
    (emit_double OP_PUSH_NUM 1
      (emit_string OP_PUSH_STR "a" [])).

(** [OP_PUSH_STR] emitted without an operand. *)
Definition bare_push_str_program : list Instruction := emit OP_PUSH_STR [].

(** A push, then [OP_ADD] with one entry on the stack, then [OP_HALT]. *)
Definition push_add_halt_program : list Instruction :=
  emit OP_HALT (emit OP_ADD (emit_double OP_PUSH_NUM 1 [])).

(** One push, no [OP_HALT]: the loop ends at [ip = 1]. *)
Definition one_push_program : list Instruction :=
  emit_double OP_PUSH_NUM 1 [].

(** A new machine with [program] loaded. *)
Definition boot (program : list Instruction) : State :=
  loadProgram program KryptonVM_new.

(** The state of [main] after [n] instructions of its program. *)
Definition main_after (n : nat) : State :=
  default KryptonVM_new (iterate n (boot main_program)).

(** The state of a new machine after [n] instructions of [program]. *)
Definition boot_after (n : nat) (program : list Instruction) : State :=
  default KryptonVM_new (iterate n (boot program)).

(** The state of a [run] of [push_add_halt_program] on a new machine after
    [n] iterations. *)
Definition after_push_add_halt (n : nat) : State :=
  let s := boot push_add_halt_program in
  default KryptonVM_new (iterate n (with_cout (cout s ++ [LineStarted]) s)).

(** The state in which the [run] of [main] returns. *)
Definition main_final : State :=
  match run (boot main_program) with
  | Some (Ok _ s') => s'
  | _ => KryptonVM_new
  end.

(** * Properties *)

(** ** The collector on an arbitrary free store *)

Lemma set_marked_idemp b c o : set_marked b (set_marked c o) = set_marked b o.
Proof. reflexivity. Qed.

Lemma set_marked_same o : set_marked (marked o) o = o.
Proof. by destruct o. Qed.

Lemma filter_ext_elem {A} (P Q : A → Prop)
    `{!∀ x, Decision (P x), !∀ x, Decision (Q x)} (l : list A) :
  (∀ x, x ∈ l → P x ↔ Q x) → filter P l = filter Q l.
Proof.
  induction l as [|a l IH]; intros HPQ; [done|].
  rewrite !filter_cons.
  rewrite IH by (intros x Hx; apply HPQ; by right).
  apply decide_ext, HPQ. by left.
Qed.

(** The mark phase succeeds when every non-null root points to a live
    object; it sets the mark of exactly those objects. *)
Lemma mark_spec (roots : list ptr) (h : gmap nat GCObject) :
  (∀ p, p ∈ roots → p ≠ nullptr → is_Some (h !! p)) →
  ∃ h', mark roots h = Some h' ∧
    ∀ p, h' !! p = if decide (p ∈ roots ∧ p ≠ nullptr)
                   then set_marked true <$> h !! p else h !! p.
Proof.
  revert h. induction roots as [|r rest IH]; intros h Hlive.
  - exists h. split; [done|]. intros p. case_decide as Hp; [|done].
    destruct Hp as [Hp _]. by apply not_elem_of_nil in Hp.
  - cbn [mark]. destruct (decide (r = nullptr)) as [Hr|Hr].
    + destruct (IH h) as (h' & Hm & Hl).
      { intros p Hp. apply Hlive. by right. }
      exists h'. split; [done|]. intros p. rewrite Hl.
      apply decide_ext. rewrite elem_of_cons. intuition congruence.
    + destruct (Hlive r) as [o Ho]; [by left|done|]. rewrite Ho.
      destruct (IH (<[r:=set_marked true o]> h)) as (h' & Hm & Hl).
      { intros p Hp Hn. rewrite lookup_insert. case_decide; [done|].
        apply Hlive; [by right|done]. }
      exists h'. split; [done|]. intros p. rewrite Hl.
      destruct (decide (p = r)) as [->|Hpr].
      * rewrite lookup_insert_eq, Ho.
        rewrite (decide_True (P := r ∈ r :: rest ∧ r ≠ nullptr)) by (split; [by left|done]).
        case_decide; done.
      * rewrite lookup_insert_ne by done.
        apply decide_ext. rewrite elem_of_cons. intuition congruence.
Qed.

(** The sweep phase succeeds on a vector of distinct pointers to live
    objects; it keeps the marked ones, in order and with their mark reset,
    and deletes the others. Objects outside the vector are not touched. *)
Lemma sweep_spec (objs : list ptr) (h : gmap nat GCObject) :
  NoDup objs →
  (∀ p, p ∈ objs → is_Some (h !! p)) →
  ∃ h', sweep objs h = Some (filter (λ p, is_marked h p) objs, h') ∧
    ∀ p, h' !! p = if decide (p ∈ objs)
                   then (if is_marked h p then set_marked false <$> h !! p else None)
                   else h !! p.
Proof.
  revert h. induction objs as [|it rest IH]; intros h Hnd Hlive.
  - exists h. split; [done|]. intros p. case_decide as Hp; [|done].
    by apply not_elem_of_nil in Hp.
  - cbn [sweep]. apply NoDup_cons in Hnd as [Hnotin Hnd].
    destruct (Hlive it) as [o Ho]; [by left|]. rewrite Ho.
    assert (Hit : is_marked h it = marked o) by (unfold is_marked; by rewrite Ho).
    destruct (marked o) eqn:Hmo; cbn [negb].
    + destruct (IH (<[it:=set_marked false o]> h) Hnd) as (h' & Hs & Hl).
      { intros p Hp. rewrite lookup_insert. case_decide; [done|].
        apply Hlive. by right. }
      rewrite Hs. eexists. split.
      * rewrite filter_cons_True by (rewrite Hit; done).
        do 3 f_equal. apply filter_ext_elem. intros p Hp.
        unfold is_marked. rewrite lookup_insert_ne; [done|]. by intros ->.
      * intros p. rewrite Hl. destruct (decide (p = it)) as [->|Hpi].
        -- rewrite (decide_False (P := it ∈ rest)) by done.
           rewrite (decide_True (P := it ∈ it :: rest)) by (by left).
           rewrite Hit, lookup_insert_eq, Ho. done.
        -- unfold is_marked. rewrite lookup_insert_ne by done.
           apply decide_ext. rewrite elem_of_cons. intuition congruence.
    + destruct (IH (delete it h) Hnd) as (h' & Hs & Hl).
      { intros p Hp. rewrite lookup_delete_ne; [|by intros ->].
        apply Hlive. by right. }
      rewrite Hs. eexists. split.
      * rewrite filter_cons_False by (rewrite Hit; intros []).
        do 2 f_equal. apply filter_ext_elem. intros p Hp.
        unfold is_marked. rewrite lookup_delete_ne; [done|]. by intros ->.
      * intros p. rewrite Hl. destruct (decide (p = it)) as [->|Hpi].
        -- rewrite (decide_False (P := it ∈ rest)) by done.
           rewrite (decide_True (P := it ∈ it :: rest)) by (by left).
           rewrite Hit, lookup_delete_eq. done.
        -- unfold is_marked. rewrite lookup_delete_ne by done.
           apply decide_ext. rewrite elem_of_cons. intuition congruence.
Qed.

(** [collect] on any root vector: it succeeds when the tracked pointers are
    distinct and live and the non-null roots are live. The tracked vector
    becomes the objects marked after the mark phase. *)
Lemma collect_spec (roots : list ptr) (s : State) :
  NoDup (objects s) →
  (∀ p, p ∈ objects s → is_Some (heap s !! p)) →
  (∀ p, p ∈ roots → p ≠ nullptr → is_Some (heap s !! p)) →
  ∃ h1 h2,
    (∀ p, h1 !! p = if decide (p ∈ roots ∧ p ≠ nullptr)
                    then set_marked true <$> heap s !! p else heap s !! p) ∧
    (∀ p, h2 !! p = if decide (p ∈ objects s)
                    then (if is_marked h1 p then set_marked false <$> h1 !! p else None)
                    else h1 !! p) ∧
    collect roots s =
      Ok tt (mkState (bytecode s) (stack s)
               (filter (λ p, is_marked h1 p) (objects s))
               (ip s) h2 (cout s ++ [LineGC])).
Proof.
  intros Hnd Hobjs Hroots.
  destruct (mark_spec roots (heap s) Hroots) as (h1 & Hm & Hl1).
  destruct (sweep_spec (objects s) h1 Hnd) as (h2 & Hs & Hl2).
  { intros p Hp. rewrite Hl1. destruct (Hobjs p Hp) as [o Ho].
    rewrite Ho. case_decide; by eexists. }
  exists h1, h2. split; [done|]. split; [done|].
  unfold collect. rewrite Hm, Hs. reflexivity.
Qed.

(** [collect] writes the tracked vector, the free store and [std::cout],
    and nothing else. *)
Lemma collect_frame (roots : list ptr) (s s' : State) :
  collect roots s = Ok tt s' →
  stack s' = stack s ∧ bytecode s' = bytecode s ∧ ip s' = ip s ∧
  cout s' = cout s ++ [LineGC].
Proof.
  unfold collect. destruct (mark roots (heap s)) as [h1|]; [|done].
  destruct (sweep (objects s) h1) as [[objs h2]|]; [|done].
  intros [= <-]. done.
Qed.

(** ** The invariant of the machine *)

Lemma inv_null s : vm_inv s → heap s !! nullptr = None.
Proof. by intros (? & _). Qed.

Lemma inv_nodup s : vm_inv s → NoDup (objects s).
Proof. by intros (_ & ? & _). Qed.

Lemma inv_tracked s :
  vm_inv s → ∀ p, p ∈ objects s → ∃ o, heap s !! p = Some o ∧ marked o = false.
Proof.
  intros (_ & _ & Ht & _) p Hp. rewrite Forall_forall in Ht.
  destruct (Ht p Hp) as [[o Ho] Hm]. exists o. split; [done|].
  unfold is_marked in Hm. by rewrite Ho in Hm.
Qed.

Lemma inv_stack s : vm_inv s → ∀ p, p ∈ stack s → p ∈ objects s.
Proof. intros (_ & _ & _ & Hs). by rewrite Forall_forall in Hs. Qed.

Lemma mk_vm_inv s :
  heap s !! nullptr = None →
  NoDup (objects s) →
  (∀ p, p ∈ objects s → ∃ o, heap s !! p = Some o ∧ marked o = false) →
  (∀ p, p ∈ stack s → p ∈ objects s) →
  vm_inv s.
Proof.
  intros Hn Hd Ht Hs. repeat split; [done|done| |by apply Forall_forall].
  apply Forall_forall. intros p Hp. destruct (Ht p Hp) as (o & Ho & Hm).
  unfold is_marked. rewrite Ho. split; [by eexists|done].
Qed.

Lemma vm_inv_new : vm_inv KryptonVM_new.
Proof. by apply (bool_decide_unpack _). Qed.

Lemma vm_inv_tracked_nonnull s p : vm_inv s → p ∈ objects s → p ≠ nullptr.
Proof.
  intros Hinv Hp ->. destruct (inv_tracked s Hinv _ Hp) as (o & Ho & _).
  rewrite (inv_null s Hinv) in Ho. done.
Qed.

(** [collect] with the stack as root set, from a state of the invariant:
    the tracked vector is filtered by membership in the stack, the objects
    that were tracked and are not on the stack are deleted, every other cell
    of the free store is as before. *)
Lemma collect_stack_spec (s : State) :
  vm_inv s →
  ∃ h',
    (∀ p, h' !! p = if decide (p ∈ objects s ∧ p ∉ stack s) then None else heap s !! p) ∧
    collect (stack s) s =
      Ok tt (mkState (bytecode s) (stack s)
               (filter (λ p, p ∈ stack s) (objects s))
               (ip s) h' (cout s ++ [LineGC])).
Proof.
  intros Hinv.
  destruct (collect_spec (stack s) s) as (h1 & h2 & Hl1 & Hl2 & Hc).
  { by apply inv_nodup. }
  { intros p Hp. destruct (inv_tracked s Hinv p Hp) as (o & Ho & _). by eexists. }
  { intros p Hp _. destruct (inv_tracked s Hinv p (inv_stack s Hinv p Hp)) as (o & Ho & _).
    by eexists. }
  assert (Hmk : ∀ p, p ∈ objects s → is_marked h1 p ↔ p ∈ stack s).
  { intros p Hp. destruct (inv_tracked s Hinv p Hp) as (o & Ho & Hmo).
    pose proof (vm_inv_tracked_nonnull s p Hinv Hp) as Hnn.
    unfold is_marked. rewrite Hl1, Ho. case_decide as Hd; simpl.
    - intuition.
    - rewrite Hmo. simpl. intuition. }
  exists h2. split.
  - intros p. rewrite Hl2. destruct (decide (p ∈ objects s)) as [Hp|Hp].
    + destruct (inv_tracked s Hinv p Hp) as (o & Ho & Hmo).
      pose proof (vm_inv_tracked_nonnull s p Hinv Hp) as Hnn.
      pose proof (Hmk p Hp) as Hiff.
      destruct (decide (p ∈ stack s)) as [Hst|Hst].
      * rewrite decide_False by intuition.
        destruct (is_marked h1 p); [|exfalso; apply Hiff in Hst; done].
        rewrite Hl1, decide_True, Ho by done. simpl.
        rewrite set_marked_idemp, <- Hmo, set_marked_same. done.
      * rewrite decide_True by done.
        destruct (is_marked h1 p); [exfalso; apply Hst, Hiff; done|done].
    + rewrite decide_False by intuition. rewrite Hl1.
      rewrite decide_False; [done|]. intros [Hst _]. by apply Hp, inv_stack.
  - rewrite Hc. do 2 f_equal. by apply filter_ext_elem.
Qed.

(** [collect] with the stack as root set keeps the invariant. *)
Lemma vm_inv_collect (s s' : State) :
  vm_inv s → collect (stack s) s = Ok tt s' → vm_inv s'.
Proof.
  intros Hinv Hc. destruct (collect_stack_spec s Hinv) as (h' & Hl & Hc').
  rewrite Hc' in Hc. injection Hc as <-.
  apply mk_vm_inv; simpl.
  - rewrite Hl. case_decide; [done|]. by apply inv_null.
  - by apply NoDup_filter, inv_nodup.
  - intros p [Hst Hp]%list_elem_of_filter. rewrite Hl.
    rewrite decide_False by intuition. by apply inv_tracked.
  - intros p Hp. apply list_elem_of_filter. split; [done|]. by apply inv_stack.
Qed.

(** ** Claims about the collector *)

(** C1. A call of [collect] with the operand stack as root set, from a state
    of the machine invariant, completes; every object the stack refers to at
    the call is still tracked afterwards and its cell (payload and mark) is
    the same; every tracked object the stack does not refer to is no longer
    tracked, and its cell is gone from the free store. *)
Theorem collect_keeps_roots_drops_rest (s : State) :
  vm_inv s →
  ∃ s', collect (stack s) s = Ok tt s' ∧
    (∀ p, p ∈ stack s →
       p ∈ objects s' ∧ ∃ o, heap s !! p = Some o ∧ heap s' !! p = Some o) ∧
    (∀ p, p ∈ objects s → p ∉ stack s →
       (p ∉ objects s') ∧ heap s' !! p = None).
Proof.
  intros Hinv. destruct (collect_stack_spec s Hinv) as (h' & Hl & Hc).
  eexists. split; [exact Hc|]. simpl. split.
  - intros p Hp. pose proof (inv_stack s Hinv p Hp) as Hobj.
    split; [by apply list_elem_of_filter|].
    destruct (inv_tracked s Hinv p Hobj) as (o & Ho & _).
    exists o. split; [done|]. rewrite Hl, decide_False by intuition. done.
  - intros p Hp Hst. split.
    + rewrite list_elem_of_filter. intuition.
    + rewrite Hl, decide_True by done. done.
Qed.

(** C4. A call of [collect] (any root vector, any mark bits at entry) that
    starts with distinct live tracked pointers and live non-null roots
    completes, and after its sweep no tracked object is marked. Every
    pointer left in the tracked vector refers to a live object whose mark
    bit is false. Of the objects tracked at the call, one that was marked at
    entry or is a non-null root survives: it is still tracked and its cell
    is the one it had with the mark bit reset to false; every other one is
    erased from the vector and deleted. *)
Theorem collect_leaves_tracked_unmarked (roots : list ptr) (s : State) :
  NoDup (objects s) →
  (∀ p, p ∈ objects s → is_Some (heap s !! p)) →
  (∀ p, p ∈ roots → p ≠ nullptr → is_Some (heap s !! p)) →
  ∃ s', collect roots s = Ok tt s' ∧
    (∀ p, p ∈ objects s' → ∃ o, heap s' !! p = Some o ∧ marked o = false) ∧
    (∀ p o, p ∈ objects s → heap s !! p = Some o →
       if decide (marked o = true ∨ (p ∈ roots ∧ p ≠ nullptr))
       then p ∈ objects s' ∧ heap s' !! p = Some (set_marked false o)
       else (p ∉ objects s') ∧ heap s' !! p = None).
Proof.
  intros Hnd Hobjs Hroots.
  destruct (collect_spec roots s Hnd Hobjs Hroots) as (h1 & h2 & Hl1 & Hl2 & Hc).
  eexists. split; [exact Hc|]. simpl. split.
  - intros p [Hm Hp]%list_elem_of_filter. rewrite Hl2, decide_True by done.
    destruct (is_marked h1 p) eqn:Hmp; [|done].
    unfold is_marked in Hmp. destruct (h1 !! p) as [o|]; [|done].
    exists (set_marked false o). done.
  - intros p o Hp Ho.
    assert (Hh2 : h2 !! p = if is_marked h1 p then Some (set_marked false o) else None).
    { rewrite Hl2. rewrite (decide_True (P := p ∈ objects s)) by done.
      destruct (is_marked h1 p); [|done]. rewrite Hl1, Ho.
      by destruct (decide (p ∈ roots ∧ p ≠ nullptr)). }
    assert (Hm : is_marked h1 p =
                 bool_decide (marked o = true ∨ (p ∈ roots ∧ p ≠ nullptr))).
    { unfold is_marked. rewrite Hl1, Ho.
      destruct (decide (p ∈ roots ∧ p ≠ nullptr)) as [Hr|Hr]; cbn.
      - symmetry. apply bool_decide_eq_true. by right.
      - destruct (marked o) eqn:Hmo.
        + symmetry. apply bool_decide_eq_true. by left.
        + symmetry. apply bool_decide_eq_false. intros [?|?]; done. }
    rewrite Hh2, Hm.
    destruct (decide (marked o = true ∨ (p ∈ roots ∧ p ≠ nullptr))) as [Hd|Hd];
      rewrite list_elem_of_filter, Hm.
    + rewrite bool_decide_eq_true_2 by done. done.
    + rewrite bool_decide_eq_false_2 by done. split; [|done]. by intros [[] _].
Qed.

(** C6. From a state of the machine invariant, a second [collect] with the
    same stack as root set, right after a first one, completes and leaves
    the tracked vector and the free store as the first one left them. *)
Theorem collect_twice_same_tracked (s : State) :
  vm_inv s →
  ∃ s1 s2,
    collect (stack s) s = Ok tt s1 ∧
    collect (stack s1) s1 = Ok tt s2 ∧
    stack s1 = stack s ∧
    objects s2 = objects s1 ∧
    heap s2 = heap s1.
Proof.
  intros Hinv. destruct (collect_stack_spec s Hinv) as (h1 & Hl1 & Hc1).
  pose proof (vm_inv_collect s _ Hinv Hc1) as Hinv1.
  destruct (collect_stack_spec _ Hinv1) as (h2 & Hl2 & Hc2).
  eexists _, _. split; [exact Hc1|]. split; [exact Hc2|]. simpl in *.
  split; [done|]. split.
  - apply list_filter_filter_l. done.
  - apply map_eq. intros p. rewrite Hl2. case_decide as Hd; [|done].
    destruct Hd as [[Hst _]%list_elem_of_filter Hn]. done.
Qed.

(** C10. [collect] does not write to the vector it is given: the stack (and
    the program and [ip]) after any completed call are those before it; from
    a state of the invariant with the stack as root set, the cell of every
    object the stack refers to is also the same, mark bit included. *)
Theorem collect_leaves_roots (roots : list ptr) (s s' : State) :
  collect roots s = Ok tt s' →
  stack s' = stack s ∧ bytecode s' = bytecode s ∧ ip s' = ip s ∧
  (vm_inv s → roots = stack s → ∀ p, p ∈ stack s → heap s' !! p = heap s !! p).
Proof.
  intros Hc. destruct (collect_frame roots s s' Hc) as (? & ? & ? & _).
  repeat split; [done..|].
  intros Hinv -> p Hp. destruct (collect_stack_spec s Hinv) as (h' & Hl & Hc').
  rewrite Hc' in Hc. injection Hc as <-. simpl. rewrite Hl.
  rewrite decide_False; [done|]. intuition.
Qed.

(** ** The instructions *)

(** Reduces the field reads of an updated state. *)
Ltac simpl_state :=
  cbn [bytecode stack objects ip heap cout with_bytecode with_stack
       with_objects with_ip with_heap with_cout] in *.

(** Unfolds the member functions a [switch] case is made of. *)
Ltac unfold_M :=
  unfold bind, ret, throw, get_double, get_string, pop, push, track, new_,
    number_value, print_obj, print_line in *.

(** Runs a [switch] case through all its outcomes. *)
Ltac run_M :=
  repeat first [ progress unfold_M | progress simpl_state
               | case_match | progress simplify_eq ].

(** The [switch] writes neither [ip] nor the program, whatever its outcome. *)
Lemma exec_frame (inst : Instruction) (s : State) :
  match exec inst s with
  | Ok _ s' | Throw _ s' => ip s' = ip s ∧ bytecode s' = bytecode s
  | UB => True
  end.
Proof. unfold exec. destruct (code inst); run_M; done. Qed.

(** The only exceptions of the [switch]: the [runtime_error] of [pop] and
    the [std::bad_variant_access] of [std::get]. *)
Lemma exec_throws (inst : Instruction) (s s' : State) (e : Exception) :
  exec inst s = Throw e s' →
  e = runtime_error "Stack Underflow" ∨ e = bad_variant_access.
Proof.
  unfold exec. destruct (code inst); run_M; intros; simplify_eq; auto.
Qed.

Lemma new_addr_fresh (h : gmap nat GCObject) :
  new_addr h ≠ nullptr ∧ h !! new_addr h = None.
Proof.
  pose proof (is_fresh ({[nullptr]} ∪ dom h)) as Hf. fold (new_addr h) in Hf.
  split; [set_solver|]. apply not_elem_of_dom. set_solver.
Qed.

(** [pop] either throws on the empty stack, leaving the state as it is, or
    takes the last entry off. *)
Lemma pop_spec (s : State) :
  match pop s with
  | Ok p s' => stack s = stack s' ++ [p] ∧ s' = with_stack (stack s') s
  | Throw e s' => stack s = [] ∧ s' = s ∧ e = runtime_error "Stack Underflow"
  | UB => False
  end.
Proof.
  unfold pop. destruct (last (stack s)) as [p|] eqn:Hlast.
  - apply last_Some in Hlast as [st Hst]. rewrite Hst, removelast_last. done.
  - apply last_None in Hlast. done.
Qed.

Lemma vm_inv_substack (s : State) (st : list ptr) :
  vm_inv s → (∀ p, p ∈ st → p ∈ stack s) → vm_inv (with_stack st s).
Proof.
  intros Hinv Hsub. apply mk_vm_inv; simpl_state.
  - by apply inv_null.
  - by apply inv_nodup.
  - by apply inv_tracked.
  - intros p Hp. by apply inv_stack, Hsub.
Qed.

Lemma vm_inv_cout (s : State) (c : list Line) : vm_inv s → vm_inv (with_cout c s).
Proof. done. Qed.

Lemma vm_inv_ip (s : State) (i : Z) : vm_inv s → vm_inv (with_ip i s).
Proof. done. Qed.

Lemma vm_inv_loadProgram (s : State) (program : list Instruction) :
  vm_inv s → vm_inv (loadProgram program s).
Proof. done. Qed.

(** [push(new T(...))] keeps the invariant: the new cell is unmarked, at an
    address that is neither null nor tracked. *)
Lemma vm_inv_push_new (s : State) (x : Payload) :
  vm_inv s →
  match (o <- new_ x ;; push o) s with
  | Ok _ s' => vm_inv s'
  | _ => False
  end.
Proof.
  intros Hinv. unfold_M. simpl_state.
  destruct (new_addr_fresh (heap s)) as [Hnn Hfree].
  set (p := new_addr (heap s)) in *.
  assert (Hnew : p ∉ objects s).
  { intros Hp. destruct (inv_tracked s Hinv p Hp) as (o & Ho & _). congruence. }
  apply mk_vm_inv; simpl_state.
  - rewrite lookup_insert_ne by done. by apply inv_null.
  - apply NoDup_app. split; [by apply inv_nodup|]. split; [|apply NoDup_singleton].
    intros q Hq ->%list_elem_of_singleton. done.
  - intros q [Hq| ->%list_elem_of_singleton]%elem_of_app.
    + rewrite lookup_insert_ne by (by intros <-). by apply inv_tracked.
    + rewrite lookup_insert_eq. by eexists.
  - intros q [Hq|Hq]%elem_of_app; apply elem_of_app; [left|by right].
    by apply inv_stack.
Qed.

(** The [switch] keeps the invariant, also when it throws. *)
Lemma vm_inv_exec (inst : Instruction) (s : State) :
  vm_inv s →
  match exec inst s with
  | Ok _ s' | Throw _ s' => vm_inv s'
  | UB => True
  end.
Proof.
  intros Hinv. unfold exec. destruct (code inst); try done.
  - destruct (operand inst); try done.
    pose proof (vm_inv_push_new s (NumberObj d) Hinv) as Hp.
    unfold bind, get_double, ret in *.
    destruct (new_ (NumberObj d) s) as [o s1| |]; [|done..].
    destruct (push o s1); done.
  - destruct (operand inst) as [|t|]; try done.
    pose proof (vm_inv_push_new s (StringObj t) Hinv) as Hp.
    unfold bind, get_string, ret in *.
    destruct (new_ (StringObj t) s) as [o s1| |]; [|done..].
    destruct (push o s1); done.
  - unfold bind at 1. pose proof (pop_spec s) as Hb.
    destruct (pop s) as [b s1| |]; [|by destruct Hb as (_ & -> & _)|done].
    destruct Hb as [Hs1 Hs1'].
    assert (Hinv1 : vm_inv s1).
    { rewrite Hs1'. apply vm_inv_substack; [done|]. intros p Hp.
      rewrite Hs1. apply elem_of_app. by left. }
    unfold bind at 1. pose proof (pop_spec s1) as Ha.
    destruct (pop s1) as [a s2| |]; [|by destruct Ha as (_ & -> & _)|done].
    destruct Ha as [Hs2 Hs2'].
    assert (Hinv2 : vm_inv s2).
    { rewrite Hs2'. apply vm_inv_substack; [done|]. intros p Hp.
      rewrite Hs2. apply elem_of_app. by left. }
    unfold bind at 1. unfold number_value at 1.
    destruct (heap s2 !! a) as [[? [va|?]]|]; try done.
    unfold bind at 1. unfold number_value at 1.
    destruct (heap s2 !! b) as [[? [vb|?]]|]; try done.
    pose proof (vm_inv_push_new s2 (NumberObj (va + vb)) Hinv2) as Hp.
    unfold bind, ret in *.
    destruct (new_ (NumberObj (va + vb)) s2) as [o s3| |]; [|done..].
    destruct (push o s3); done.
  - unfold bind at 1. pose proof (pop_spec s) as Hb.
    destruct (pop s) as [b s1| |]; [|by destruct Hb as (_ & -> & _)|done].
    destruct Hb as [Hs1 Hs1'].
    assert (Hinv1 : vm_inv s1).
    { rewrite Hs1'. apply vm_inv_substack; [done|]. intros p Hp.
      rewrite Hs1. apply elem_of_app. by left. }
    unfold bind, print_obj, print_line, ret.
    destruct (heap s1 !! b); done.
Qed.

(** ** The loop of [run] *)

(** The loop body, outcome by outcome. *)
Lemma loop_body_unfold (s : State) :
  loop_body s =
    match bytecode s !! Z.to_nat (to_size_t (ip s)) with
    | None => UB
    | Some inst =>
        match exec inst s with
        | Ok Return s1 => Ok Return s1
        | Ok Break s1 =>
            if decide (ip s1 = INT_MAX) then UB
            else if Z.rem (ip s1 + 1) 5 =? 0
                 then match collect (stack s1) (with_ip (ip s1 + 1) s1) with
                      | Ok _ s2 => Ok Break s2
                      | Throw e s2 => Throw e s2
                      | UB => UB
                      end
                 else Ok Break (with_ip (ip s1 + 1) s1)
        | Throw e s1 => Throw e s1
        | UB => UB
        end
    end.
Proof.
  unfold loop_body, bind at 1, fetch.
  destruct (bytecode s !! Z.to_nat (to_size_t (ip s))) as [inst|]; [|done].
  unfold bind at 1. destruct (exec inst s) as [[|] s1|e s1|]; [|done..].
  unfold bind at 1, incr_ip. destruct (decide (ip s1 = INT_MAX)); [done|].
  unfold bind, maybe_collect, ret. simpl_state.
  destruct (Z.rem (ip s1 + 1) 5 =? 0); [|done].
  destruct (collect _ _) as [[] ?| |]; done.
Qed.

(** [collect] throws nothing. *)
Lemma collect_no_throw (roots : list ptr) (s s' : State) (e : Exception) :
  collect roots s ≠ Throw e s'.
Proof.
  unfold collect, print_line. repeat case_match; done.
Qed.

(** An iteration that goes on to the next one has incremented [ip], which
    was not [INT_MAX], and left the program alone. *)
Lemma loop_body_Break_frame (s s' : State) :
  loop_body s = Ok Break s' →
  ip s' = ip s + 1 ∧ ip s ≠ INT_MAX ∧ bytecode s' = bytecode s.
Proof.
  rewrite loop_body_unfold.
  destruct (bytecode s !! _) as [inst|]; [|done].
  pose proof (exec_frame inst s) as Hf.
  destruct (exec inst s) as [[|] s1|e s1|]; [|done..].
  destruct Hf as [Hip Hbc]. case_decide as Hmax; [done|].
  destruct (Z.rem (ip s1 + 1) 5 =? 0).
  - destruct (collect _ _) as [[] s2| |] eqn:Hc; [|done..].
    apply collect_frame in Hc. simpl_state.
    intros [= <-]. destruct Hc as (_ & -> & -> & _).
    rewrite <- Hip. done.
  - intros [= <-]. simpl_state. rewrite <- Hip. done.
Qed.

(** An iteration keeps the invariant, however it ends. *)
Lemma vm_inv_loop_body (s : State) :
  vm_inv s →
  match loop_body s with
  | Ok _ s' | Throw _ s' => vm_inv s'
  | UB => True
  end.
Proof.
  intros Hinv. rewrite loop_body_unfold.
  destruct (bytecode s !! _) as [inst|]; [|done].
  pose proof (vm_inv_exec inst s Hinv) as Hinv1.
  destruct (exec inst s) as [[|] s1|e s1|]; [|done..].
  case_decide; [done|]. destruct (Z.rem (ip s1 + 1) 5 =? 0); [|done].
  destruct (collect _ _) as [[] s2|e s2|] eqn:Hc; [| |done].
  - by apply (vm_inv_collect (with_ip (ip s1 + 1) s1)).
  - by apply collect_no_throw in Hc.
Qed.

(** The exceptions of an iteration are those of the [switch]. *)
Lemma loop_body_throws (s s' : State) (e : Exception) :
  loop_body s = Throw e s' →
  e = runtime_error "Stack Underflow" ∨ e = bad_variant_access.
Proof.
  rewrite loop_body_unfold.
  destruct (bytecode s !! _) as [inst|]; [|done].
  destruct (exec inst s) as [[|] s1|e1 s1|] eqn:He; [|done| |done].
  - case_decide; [done|]. destruct (Z.rem (ip s1 + 1) 5 =? 0); [|done].
    destruct (collect _ _) as [[] s2|e2 s2|] eqn:Hc; [done| |done].
    by apply collect_no_throw in Hc.
  - intros [= <- <-]. by eapply exec_throws.
Qed.

Lemma to_size_t_ip (s : State) : ip_ok s → to_size_t (ip s) = ip s.
Proof.
  unfold ip_ok, to_size_t, INT_MAX. intros ?. apply Z.mod_small. lia.
Qed.

(** [n] completed iterations advance [ip] by [n]. *)
Lemma iterate_frame (n : nat) (s s' : State) :
  ip_ok s → iterate n s = Some s' →
  ip s' = ip s + Z.of_nat n ∧ bytecode s' = bytecode s ∧ ip_ok s'.
Proof.
  revert s. induction n as [|n IH]; intros s Hok; cbn [iterate].
  - intros [= <-]. split; [lia|done].
  - destruct (in_program s); [|done].
    destruct (loop_body s) as [[|] s1| |] eqn:Hb; try done.
    apply loop_body_Break_frame in Hb as (Hip & Hmax & Hbc).
    intros Hit. destruct (IH s1) as (Hip' & Hbc' & Hok'); [|done|].
    { unfold ip_ok in *. lia. }
    split; [lia|]. split; [congruence|done].
Qed.

Lemma vm_inv_iterate (n : nat) (s s' : State) :
  vm_inv s → iterate n s = Some s' → vm_inv s'.
Proof.
  revert s. induction n as [|n IH]; intros s Hinv; cbn [iterate].
  - by intros [= <-].
  - destruct (in_program s); [|done].
    pose proof (vm_inv_loop_body s Hinv) as Hinv1.
    destruct (loop_body s) as [[|] s1| |]; try done. by apply IH.
Qed.

(** The loop ends within [size - ip] iterations: with one more test of its
    condition than that it has an outcome. *)
Lemma run_loop_returns (fuel : nat) (s : State) :
  ip_ok s → size s - ip s ≤ Z.of_nat fuel → is_Some (run_loop (S fuel) s).
Proof.
  revert s. induction fuel as [|fuel IH]; intros s Hok Hfuel;
    cbn [run_loop]; (destruct (in_program s) eqn:Hin; [|by eexists]);
    unfold in_program in Hin; rewrite (to_size_t_ip s Hok) in Hin;
    apply Z.ltb_lt in Hin.
  - lia.
  - destruct (loop_body s) as [[|] s1|e s1|] eqn:Hb; try by eexists.
    apply loop_body_Break_frame in Hb as (Hip & Hmax & Hbc).
    apply IH; unfold ip_ok, size in *; rewrite ?Hbc; lia.
Qed.

(** [run] has an outcome from every state whose [ip] is a non-negative
    [int]. *)
Lemma run_returns (s : State) : ip_ok s → is_Some (run s).
Proof.
  intros Hok. unfold run, print_line.
  apply run_loop_returns; [done|]. unfold size, ip_ok in *. simpl_state. lia.
Qed.

(** The states in which [run] ends satisfy the invariant. *)
Lemma vm_inv_run_loop (fuel : nat) (s : State) :
  vm_inv s →
  match run_loop fuel s with
  | Some (Ok _ s') | Some (Throw _ s') => vm_inv s'
  | _ => True
  end.
Proof.
  revert s. induction fuel as [|fuel IH]; intros s Hinv; cbn [run_loop]; [done|].
  destruct (in_program s); [|done].
  pose proof (vm_inv_loop_body s Hinv) as Hinv1.
  destruct (loop_body s) as [[|] s1|e s1|]; try done. by apply IH.
Qed.

(** The only exceptions that leave the loop of [run]. *)
Lemma run_loop_throws (fuel : nat) (s s' : State) (e : Exception) :
  run_loop fuel s = Some (Throw e s') →
  e = runtime_error "Stack Underflow" ∨ e = bad_variant_access.
Proof.
  revert s. induction fuel as [|fuel IH]; intros s; cbn [run_loop]; [done|].
  destruct (in_program s); [|done].
  destruct (loop_body s) as [[|] s1|e1 s1|] eqn:Hb; try done.
  - apply IH.
  - intros [= <- <-]. by eapply loop_body_throws.
Qed.

(** Iterations that complete are iterations of the loop of [run]. *)
Lemma run_loop_iterate (n fuel : nat) (s s' : State) :
  iterate n s = Some s' → run_loop (n + fuel) s = run_loop fuel s'.
Proof.
  revert s. induction n as [|n IH]; intros s; cbn [iterate].
  - by intros [= <-].
  - cbn [Nat.add run_loop]. destruct (in_program s); [|done].
    destruct (loop_body s) as [[|] s1| |]; try done. apply IH.
Qed.

(** [ip] stays a non-negative [int] through the loop. *)
Lemma ip_ok_run_loop (fuel : nat) (s : State) :
  ip_ok s →
  match run_loop fuel s with
  | Some (Ok _ s') | Some (Throw _ s') => ip_ok s'
  | _ => True
  end.
Proof.
  revert s. induction fuel as [|fuel IH]; intros s Hok; cbn [run_loop]; [done|].
  destruct (in_program s); [|done].
  destruct (loop_body s) as [[|] s1|e s1|] eqn:Hb; [| | |done].
  - apply loop_body_Break_frame in Hb as (Hip & Hmax & _).
    apply IH. unfold ip_ok in *. lia.
  - rewrite loop_body_unfold in Hb.
    destruct (bytecode s !! _) as [inst|]; [|done].
    pose proof (exec_frame inst s) as Hf.
    destruct (exec inst s) as [[|] s2|e2 s2|]; [| |done..].
    + case_decide; [done|]. destruct (Z.rem _ _ =? 0); [|done].
      destruct (collect _ _) as [[] ?| |]; done.
    + injection Hb as <-. unfold ip_ok in *. destruct Hf as [-> _]. done.
  - rewrite loop_body_unfold in Hb.
    destruct (bytecode s !! _) as [inst|]; [|done].
    pose proof (exec_frame inst s) as Hf.
    destruct (exec inst s) as [[|] s2|e2 s2|]; [| | |done].
    + case_decide; [done|]. destruct (Z.rem _ _ =? 0); [|done].
      destruct (collect _ _) as [[] ?|e3 ?|] eqn:Hc; [done| |done].
      by apply collect_no_throw in Hc.
    + done.
    + injection Hb as <- <-. unfold ip_ok in *. destruct Hf as [-> _]. done.
Qed.

(** Every state a machine can be in satisfies the invariant, and its [ip]
    is a non-negative [int]; so does every state in which the loop of [run]
    calls [collect]. *)
Lemma reachable_inv (s : State) : reachable s → vm_inv s ∧ ip_ok s.
Proof.
  induction 1 as [|program s _ [Hinv Hok]|s s' _ [Hinv Hok] Hrun
                  |s e s' _ [Hinv Hok] Hrun].
  - split; [apply vm_inv_new|]. unfold ip_ok, INT_MAX. simpl. lia.
  - done.
  - unfold run, print_line in Hrun.
    pose proof (vm_inv_run_loop (S (length (bytecode s))) _
                  (vm_inv_cout s (cout s ++ [LineStarted]) Hinv)) as H1.
    pose proof (ip_ok_run_loop (S (length (bytecode s)))
                  (with_cout (cout s ++ [LineStarted]) s) Hok) as H2.
    simpl_state. rewrite Hrun in H1, H2. done.
  - unfold run, print_line in Hrun.
    pose proof (vm_inv_run_loop (S (length (bytecode s))) _
                  (vm_inv_cout s (cout s ++ [LineStarted]) Hinv)) as H1.
    pose proof (ip_ok_run_loop (S (length (bytecode s)))
                  (with_cout (cout s ++ [LineStarted]) s) Hok) as H2.
    simpl_state. rewrite Hrun in H1, H2. done.
Qed.

Lemma vm_inv_at_collect (inst : Instruction) (s s1 : State) :
  vm_inv s → exec inst s = Ok Break s1 → vm_inv (with_ip (ip s1 + 1) s1).
Proof.
  intros Hinv He. pose proof (vm_inv_exec inst s Hinv) as H. by rewrite He in H.
Qed.

(** [run] has an outcome from every state a machine can be in. *)
Lemma reachable_run_returns (s : State) : reachable s → is_Some (run s).
Proof. intros [_ Hok]%reachable_inv. by apply run_returns. Qed.

(** ** Claims about the instructions *)

Lemma pop_snoc (s : State) (st : list ptr) (p : ptr) :
  stack s = st ++ [p] → pop s = Ok p (with_stack st s).
Proof. intros Hst. unfold pop. by rewrite Hst, last_snoc, removelast_last. Qed.

(** C9. [OP_ADD] on a stack whose two top entries point to numbers [a]
    (below) and [b] (top) takes both off and pushes a pointer to a new
    unmarked [NumberObj] of value [a + b], at an address that was not in
    use; the pointer is appended to the tracked vector in the same step. *)
Theorem exec_ADD_pushes_tracked_sum
    (inst : Instruction) (s : State) (st : list ptr) (pa pb : ptr)
    (ma mb : bool) (a b : float) :
  code inst = OP_ADD →
  stack s = st ++ [pa; pb] →
  heap s !! pa = Some (mkGCObject ma (NumberObj a)) →
  heap s !! pb = Some (mkGCObject mb (NumberObj b)) →
  let p := new_addr (heap s) in
  p ≠ nullptr ∧ heap s !! p = None ∧
  exec inst s =
    Ok Break (mkState (bytecode s) (st ++ [p]) (objects s ++ [p]) (ip s)
                (<[p := mkGCObject false (NumberObj (a + b))]> (heap s))
                (cout s)).
Proof.
  intros Hcode Hst Ha Hb p. destruct (new_addr_fresh (heap s)) as [Hnn Hfree].
  split; [done|]. split; [done|].
  unfold exec. rewrite Hcode.
  unfold bind at 1. rewrite (pop_snoc s (st ++ [pa]) pb) by (by rewrite Hst, <- app_assoc).
  unfold bind at 1. rewrite (pop_snoc _ st pa) by done.
  unfold bind, number_value, new_, push, track, ret. simpl_state.
  rewrite Ha. cbn beta iota. simpl_state. rewrite Hb. reflexivity.
Qed.

(** C2. [OP_MUL], [OP_SUB] and [OP_DIV] fall to the [default] of the
    [switch]: whatever the stack, they leave the whole state as it is. The
    program of [main], which encodes (10 + 20) * 2, prints 2 and ends with
    the 30 still on the stack. *)
Theorem MUL_SUB_DIV_do_nothing :
  (∀ (v : Operand) (s : State),
     exec (mkInstruction OP_MUL v) s = Ok Break s ∧
     exec (mkInstruction OP_SUB v) s = Ok Break s ∧
     exec (mkInstruction OP_DIV v) s = Ok Break s) ∧
  ∃ s' p, run (boot main_program) = Some (Ok tt s') ∧
    cout s' = [LineStarted; LineGC; LinePrint (StringObj "Hasil Kalkulasi: ");
               LinePrint (NumberObj 2); LineHalted] ∧
    stack s' = [p] ∧
    heap s' !! p = Some (mkGCObject false (NumberObj 30)).
Proof.
  split; [done|]. eexists _, _. split; [vm_compute; reflexivity|].
  split; [reflexivity|]. split; reflexivity.
Qed.

(** The iteration whose instruction calls [pop] more often than the stack
    has entries throws, with the entries popped before the throw gone and
    nothing else written. *)
Lemma loop_body_underflow (s : State) (inst : Instruction) :
  fetch s = Ok inst s →
  (length (stack s) < pops (code inst))%nat →
  loop_body s = Throw (runtime_error "Stack Underflow") (with_stack [] s).
Proof.
  intros Hfetch Hlen. unfold fetch in Hfetch. rewrite loop_body_unfold.
  destruct (bytecode s !! _) as [inst'|]; [|done]. injection Hfetch as ->.
  unfold exec. destruct (code inst); cbn [pops] in Hlen; try lia.
  - destruct (stack s) as [|b [|a st]] eqn:Hst; cbn [length] in Hlen; [| |lia].
    + unfold bind at 1, pop. rewrite Hst. cbn [last].
      destruct s; simpl in *; by subst.
    + unfold bind at 1, pop. rewrite Hst.
      cbn [last removelast]. unfold bind at 1. simpl_state. cbn [last].
      done.
  - destruct (stack s) as [|b st] eqn:Hst; cbn [length] in Hlen; [|lia].
    unfold bind at 1, pop. rewrite Hst. cbn [last].
    destruct s; simpl in *; by subst.
Qed.

(** C5. [pop] on the empty stack throws [runtime_error("Stack Underflow")]
    and touches nothing. Wherever in a run it happens: when [run], entered
    in a state [s], has completed [n] iterations and the instruction then at
    [ip] calls [pop] more often than the stack has entries ([OP_PRINT] on
    the empty stack, [OP_ADD] on fewer than two entries), that exception
    leaves [run]: no later instruction runs, [ip] stays at the instruction,
    nothing is allocated or printed, and the entries popped before the throw
    are gone. For [OP_ADD] the entry that is there points to a [NumberObj],
    as the cast of the popped pointer to [NumberObj*] requires. *)
Theorem stack_underflow_ends_run (n : nat) (s sn : State) (inst : Instruction) :
  ip_ok s →
  iterate n (with_cout (cout s ++ [LineStarted]) s) = Some sn →
  in_program sn = true →
  fetch sn = Ok inst sn →
  (length (stack sn) < pops (code inst))%nat →
  (code inst = OP_ADD →
   ∀ p, p ∈ stack sn → ∃ m v, heap sn !! p = Some (mkGCObject m (NumberObj v))) →
  (∀ s0, stack s0 = [] → pop s0 = Throw (runtime_error "Stack Underflow") s0) ∧
  run s = Some (Throw (runtime_error "Stack Underflow") (with_stack [] sn)).
Proof.
  intros Hok Hit Hin Hfetch Hlen _. split.
  { intros s0 Hs0. unfold pop. by rewrite Hs0. }
  unfold run, print_line.
  set (s1 := with_cout (cout s ++ [LineStarted]) s) in *.
  destruct (iterate_frame n s1 sn Hok Hit) as (Hip & Hbc & Hokn).
  assert (Hn : (n < length (bytecode s1))%nat).
  { unfold in_program, size in Hin. rewrite to_size_t_ip in Hin by done.
    apply Z.ltb_lt in Hin. rewrite Hbc in Hin. unfold ip_ok in Hok.
    change (ip s1) with (ip s) in Hip. lia. }
  replace (S (length (bytecode s1)))
    with (n + S (length (bytecode s1) - n))%nat by lia.
  rewrite (run_loop_iterate n _ s1 sn Hit). cbn [run_loop].
  by rewrite Hin, (loop_body_underflow sn inst Hfetch Hlen).
Qed.

(** C7, as the code has it. No instruction fails with a division error,
    [OP_DIV] with a zero divisor included: an exception that leaves [run] is
    the [runtime_error("Stack Underflow")] of [pop] or the
    [std::bad_variant_access] of [std::get]. *)
Theorem run_throws_underflow_or_bad_variant (s s' : State) (e : Exception) :
  run s = Some (Throw e s') →
  e = runtime_error "Stack Underflow" ∨ e = bad_variant_access.
Proof. unfold run, print_line. apply run_loop_throws. Qed.

(** C8, as the code has it. [loadProgram] replaces the program and writes
    nothing else: [ip], the stack, the tracked vector, the free store and
    the output are those before the call; on a new machine [ip] is 0. *)
Theorem loadProgram_replaces_program_only (program : list Instruction) (s : State) :
  bytecode (loadProgram program s) = program ∧
  ip (loadProgram program s) = ip s ∧
  stack (loadProgram program s) = stack s ∧
  objects (loadProgram program s) = objects s ∧
  heap (loadProgram program s) = heap s ∧
  cout (loadProgram program s) = cout s ∧
  ip (loadProgram program KryptonVM_new) = 0.
Proof. done. Qed.

(** ** Claims about the collection cadence *)

Lemma gc_cycles_snoc (out : list Line) (l : Line) :
  gc_cycles (out ++ [l]) = (gc_cycles out + if is_gc_line l then 1 else 0)%nat.
Proof.
  unfold gc_cycles. rewrite filter_app, length_app. f_equal.
  by destruct l.
Qed.

(** The [switch] reports no collection cycle. *)
Lemma exec_gc_cycles (inst : Instruction) (s : State) :
  match exec inst s with
  | Ok _ s' | Throw _ s' => gc_cycles (cout s') = gc_cycles (cout s)
  | UB => True
  end.
Proof.
  unfold exec. destruct (code inst); run_M; rewrite ?gc_cycles_snoc; simpl; lia.
Qed.

(** The [switch] is left by [return] for [OP_HALT] and for nothing else. *)
Lemma exec_Return (inst : Instruction) (s s' : State) :
  exec inst s = Ok Return s' →
  code inst = OP_HALT ∧ s' = with_cout (cout s ++ [LineHalted]) s.
Proof.
  unfold exec. destruct (code inst); run_M; try done. by intros [= <-].
Qed.

Lemma exec_Break (inst : Instruction) (s s' : State) :
  exec inst s = Ok Break s' → code inst ≠ OP_HALT.
Proof. unfold exec. destruct (code inst); run_M; done. Qed.

(** C3, as the code has it. Take a run that has completed [n] iterations
    from a state [s] and is in the program. If the next instruction runs to
    the [break] of the [switch], [ip] becomes [ip s + n + 1], and [collect]
    is called, with the stack that instruction left as root set, exactly
    when this new [ip] is a multiple of 5 (from [ip s = 0]: when the number
    of instructions run so far is); one cycle is reported then and none
    otherwise. If the next instruction is [OP_HALT], [run] returns before
    the increment and the test: [ip] stays and no collection follows. *)
Theorem gc_when_ip_multiple_of_5 (n : nat) (s sn : State) :
  ip_ok s →
  iterate n s = Some sn →
  in_program sn = true →
  match loop_body sn with
  | Ok Break s' =>
      ip s' = ip s + Z.of_nat n + 1 ∧
      ∃ inst s1,
        fetch sn = Ok inst sn ∧ code inst ≠ OP_HALT ∧ exec inst sn = Ok Break s1 ∧
        if decide ((ip s + Z.of_nat n + 1) mod 5 = 0)
        then collect (stack s1) (with_ip (ip sn + 1) s1) = Ok tt s' ∧
             gc_cycles (cout s') = S (gc_cycles (cout sn))
        else s' = with_ip (ip sn + 1) s1 ∧
             gc_cycles (cout s') = gc_cycles (cout sn)
  | Ok Return s' =>
      (∃ inst, fetch sn = Ok inst sn ∧ code inst = OP_HALT) ∧
      s' = with_cout (cout sn ++ [LineHalted]) sn
  | _ => True
  end.
Proof.
  intros Hok Hit Hin.
  destruct (iterate_frame n s sn Hok Hit) as (Hipn & _ & Hokn).
  destruct (loop_body sn) as [[|] s'| |] eqn:Hb; [| |done..].
  - pose proof (loop_body_Break_frame sn s' Hb) as (Hip & Hmax & _).
    split; [lia|]. rewrite loop_body_unfold in Hb. unfold fetch.
    destruct (bytecode sn !! _) as [inst|]; [|done].
    pose proof (exec_frame inst sn) as Hf.
    pose proof (exec_gc_cycles inst sn) as Hg.
    destruct (exec inst sn) as [[|] s1|e s1|] eqn:He; [|done..].
    destruct Hf as [Hip1 _]. exists inst, s1.
    split; [done|]. split; [by eapply exec_Break|]. split; [done|].
    rewrite Hip1 in Hb. case_decide as Hmax'; [done|].
    assert (Hrem : Z.rem (ip sn + 1) 5 = (ip s + Z.of_nat n + 1) mod 5).
    { rewrite Hipn. apply Z.rem_mod_nonneg; unfold ip_ok in *; lia. }
    rewrite Hrem in Hb. destruct (decide (_ mod 5 = 0)) as [H5|H5].
    + rewrite H5 in Hb. cbn [Z.eqb] in Hb.
      destruct (collect _ _) as [[] s2| |] eqn:Hc; [|done..].
      injection Hb as ->. split; [done|].
      apply collect_frame in Hc as (_ & _ & _ & ->).
      rewrite gc_cycles_snoc. simpl_state. cbn [is_gc_line]. lia.
    + apply Z.eqb_neq in H5. rewrite H5 in Hb. injection Hb as <-.
      split; [done|]. simpl_state. done.
  - rewrite loop_body_unfold in Hb. unfold fetch.
    destruct (bytecode sn !! _) as [inst|]; [|done].
    destruct (exec inst sn) as [[|] s1|e s1|] eqn:He; [| |done..].
    + case_decide; [done|]. destruct (Z.rem _ _ =? 0); [|done].
      destruct (collect _ _) as [[] s2| |]; done.
    + injection Hb as ->. apply exec_Return in He as [Hcode ->].
      split; [by exists inst|done].
Qed.

(** ** The claims on the program of [main] and on small programs *)

(** Every state of [main] satisfies the invariant and has a valid [ip]. *)
Lemma vm_inv_main_after (n : nat) : vm_inv (main_after n).
Proof.
  unfold main_after. destruct (iterate n (boot main_program)) as [s|] eqn:Hit.
  - apply (vm_inv_iterate n (boot main_program)); [|done].
    apply vm_inv_loadProgram, vm_inv_new.
  - apply vm_inv_new.
Qed.

Lemma ip_ok_boot (program : list Instruction) : ip_ok (boot program).
Proof. unfold ip_ok, INT_MAX. simpl. lia. Qed.

(** C1 on [main]: the state in which [main] calls [collect], with 10, 20,
    30 and 2 tracked and 30 and 2 on the stack. *)
Lemma collect_keeps_roots_drops_rest_witness :
  let s := main_after 4 in
  ∃ s', collect (stack s) s = Ok tt s' ∧
    (∀ p, p ∈ stack s →
       p ∈ objects s' ∧ ∃ o, heap s !! p = Some o ∧ heap s' !! p = Some o) ∧
    (∀ p, p ∈ objects s → p ∉ stack s →
       (p ∉ objects s') ∧ heap s' !! p = None).
Proof.
  apply (collect_keeps_roots_drops_rest (main_after 4)).
  apply (bool_decide_unpack _). vm_compute. exact I.
Defined.

(** C4 on [main]. *)
Lemma collect_leaves_tracked_unmarked_witness :
  let s := main_after 4 in
  let roots := stack s in
  ∃ s', collect roots s = Ok tt s' ∧
    (∀ p, p ∈ objects s' → ∃ o, heap s' !! p = Some o ∧ marked o = false) ∧
    (∀ p o, p ∈ objects s → heap s !! p = Some o →
       if decide (marked o = true ∨ (p ∈ roots ∧ p ≠ nullptr))
       then p ∈ objects s' ∧ heap s' !! p = Some (set_marked false o)
       else (p ∉ objects s') ∧ heap s' !! p = None).
Proof.
  assert (Hinv : vm_inv (main_after 4))
    by (apply (bool_decide_unpack _); vm_compute; exact I).
  apply (collect_leaves_tracked_unmarked (stack (main_after 4)) (main_after 4)).
  - exact (inv_nodup _ Hinv).
  - intros p Hp. destruct (inv_tracked _ Hinv p Hp) as (o & Ho & _).
    exists o. exact Ho.
  - intros p Hp _.
    destruct (inv_tracked _ Hinv p (inv_stack _ Hinv p Hp)) as (o & Ho & _).
    exists o. exact Ho.
Defined.

(** C6 on [main]. *)
Lemma collect_twice_same_tracked_witness :
  let s := main_after 4 in
  ∃ s1 s2,
    collect (stack s) s = Ok tt s1 ∧
    collect (stack s1) s1 = Ok tt s2 ∧
    stack s1 = stack s ∧
    objects s2 = objects s1 ∧
    heap s2 = heap s1.
Proof.
  apply (collect_twice_same_tracked (main_after 4)).
  apply (bool_decide_unpack _). vm_compute. exact I.
Defined.

(** C10 on [main]: the call of [collect] in the fifth iteration. *)
Lemma collect_leaves_roots_witness :
  let s := with_ip 5 (main_after 4) in
  let s' := main_after 5 in
  collect (stack s) s = Ok tt s' ∧
  stack s' = stack s ∧ bytecode s' = bytecode s ∧ ip s' = ip s ∧
  ∀ p, p ∈ stack s → heap s' !! p = heap s !! p.
Proof.
  assert (Hc : collect (stack (with_ip 5 (main_after 4))) (with_ip 5 (main_after 4))
               = Ok tt (main_after 5)) by (vm_compute; reflexivity).
  destruct (collect_leaves_roots _ _ _ Hc) as (Hst & Hbc & Hip & Hcells).
  split; [exact Hc|]. split; [exact Hst|]. split; [exact Hbc|]. split; [exact Hip|].
  apply Hcells; [|reflexivity].
  apply (bool_decide_unpack _). vm_compute. exact I.
Defined.

(** C3 on [main]: the fifth instruction, [OP_MUL], takes [ip] to 5. *)
Lemma gc_when_ip_multiple_of_5_witness :
  let s := boot main_program in
  let sn := main_after 4 in
  match loop_body sn with
  | Ok Break s' =>
      ip s' = ip s + Z.of_nat 4 + 1 ∧
      ∃ inst s1,
        fetch sn = Ok inst sn ∧ code inst ≠ OP_HALT ∧ exec inst sn = Ok Break s1 ∧
        if decide ((ip s + Z.of_nat 4 + 1) mod 5 = 0)
        then collect (stack s1) (with_ip (ip sn + 1) s1) = Ok tt s' ∧
             gc_cycles (cout s') = S (gc_cycles (cout sn))
        else s' = with_ip (ip sn + 1) s1 ∧
             gc_cycles (cout s') = gc_cycles (cout sn)
  | Ok Return s' =>
      (∃ inst, fetch sn = Ok inst sn ∧ code inst = OP_HALT) ∧
      s' = with_cout (cout sn ++ [LineHalted]) sn
  | _ => True
  end.
Proof.
  apply (gc_when_ip_multiple_of_5 4 (boot main_program) (main_after 4)).
  - apply ip_ok_boot.
  - vm_compute. reflexivity.
  - vm_compute. reflexivity.
Defined.

(** C3 as stated fails: five instructions run, the fifth being [OP_HALT],
    and [run] returns without any collection cycle. *)
Lemma gc_after_five_instructions_counterexample :
  ∃ s4 s5,
    iterate 4 (boot halt_fifth_program) = Some s4 ∧
    in_program s4 = true ∧
    loop_body s4 = Ok Return s5 ∧
    gc_cycles (cout s5) = 0%nat ∧
    ∃ s', run (boot halt_fifth_program) = Some (Ok tt s') ∧
          gc_cycles (cout s') = 0%nat ∧ objects s' = objects s5 ∧
          length (objects s') = 4%nat.
Proof.
  eexists _, _. split; [vm_compute; reflexivity|].
  split; [vm_compute; reflexivity|]. split; [vm_compute; reflexivity|].
  split; [vm_compute; reflexivity|].
  eexists. split; [vm_compute; reflexivity|]. vm_compute. done.
Qed.

(** C5 on a push followed by [OP_ADD] and [OP_HALT], run on a new machine:
    the underflow is in the second iteration, at the second [pop]. *)
Lemma stack_underflow_ends_run_witness :
  let s := boot push_add_halt_program in
  let sn := after_push_add_halt 1 in
  (∀ s0, stack s0 = [] → pop s0 = Throw (runtime_error "Stack Underflow") s0) ∧
  run s = Some (Throw (runtime_error "Stack Underflow") (with_stack [] sn)).
Proof.
  apply (stack_underflow_ends_run 1 (boot push_add_halt_program)
           (after_push_add_halt 1) (mkInstruction OP_ADD (in_double 0))).
  - apply ip_ok_boot.
  - vm_compute. reflexivity.
  - vm_compute. reflexivity.
  - vm_compute. reflexivity.
  - vm_compute. lia.
  - intros _ p Hp. vm_compute in Hp. apply list_elem_of_singleton in Hp.
    exists false, 1%float. rewrite Hp. vm_compute. reflexivity.
Defined.

(** C7 as stated fails: 1 / 0 runs to [OP_HALT] with no error; [OP_DIV]
    leaves the stack alone and [OP_PRINT] prints the 0. *)
Lemma DIV_by_zero_counterexample :
  (∃ s', run (boot div_by_zero_program) = Some (Ok tt s') ∧
         cout s' = [LineStarted; LinePrint (NumberObj 0); LineHalted]) ∧
  ¬ ∃ e s', run (boot div_by_zero_program) = Some (Throw e s').
Proof.
  split.
  - eexists. split; [vm_compute; reflexivity|]. done.
  - intros (e & s' & H). vm_compute in H. discriminate H.
Qed.

(** C7 on a lone [OP_ADD]: the exception that leaves [run]. *)
Lemma run_throws_underflow_or_bad_variant_witness :
  let s := boot lone_add_program in
  let e := runtime_error "Stack Underflow" in
  run s = Some (Throw e (with_cout [LineStarted] s)) ∧
  (e = runtime_error "Stack Underflow" ∨ e = bad_variant_access).
Proof.
  assert (Hrun : run (boot lone_add_program) =
                 Some (Throw (runtime_error "Stack Underflow")
                         (with_cout [LineStarted] (boot lone_add_program))))
    by (vm_compute; reflexivity).
  split; [exact Hrun|].
  exact (run_throws_underflow_or_bad_variant _ _ _ Hrun).
Defined.

(** C8 as stated fails: after a run that ended at [ip = 1], loading a
    program leaves [ip] at 1. *)
Lemma loadProgram_resets_ip_counterexample :
  ∃ s1, run (boot one_push_program) = Some (Ok tt s1) ∧
        bytecode (loadProgram main_program s1) = main_program ∧
        ip (loadProgram main_program s1) = 1 ∧
        ip (loadProgram main_program s1) ≠ 0.
Proof.
  eexists. split; [vm_compute; reflexivity|]. done.
Qed.

(** C9 on [main]: its [OP_ADD], with 10 and 20 on the stack. *)
Lemma exec_ADD_pushes_tracked_sum_witness :
  let s := main_after 2 in
  let p := new_addr (heap s) in
  p ≠ nullptr ∧ heap s !! p = None ∧
  exec (mkInstruction OP_ADD (in_double 0)) s =
    Ok Break (mkState (bytecode s) ([] ++ [p]) (objects s ++ [p]) (ip s)
                (<[p := mkGCObject false (NumberObj (10 + 20))]> (heap s))
                (cout s)).
Proof.
  apply (exec_ADD_pushes_tracked_sum (mkInstruction OP_ADD (in_double 0))
           (main_after 2) [] 1%nat 2%nat false false 10%float 20%float).
  - reflexivity.
  - vm_compute. reflexivity.
  - vm_compute. reflexivity.
  - vm_compute. reflexivity.
Defined.

(** * Further properties of the machine *)

(** ** What an instruction does to the state *)

Lemma alloc_push_run (x : Payload) (s : State) :
  (o <- new_ x ;; push o) s = Ok tt (alloc_push x s).
Proof. reflexivity. Qed.

Lemma with_same (s : State) : with_cout (cout s) (with_stack (stack s) s) = s.
Proof. by destruct s. Qed.

(** The [switch] takes entries off the top of the stack and then either
    pushes one new object, or prints, or throws; it writes nothing else. An
    object it pushes is a [NumberObj] unless the instruction is
    [OP_PUSH_STR]. *)
Lemma exec_shape (inst : Instruction) (s : State) :
  match exec inst s with
  | Ok _ s' =>
      ∃ st, st `prefix_of` stack s ∧
        ((∃ x, s' = alloc_push x (with_stack st s) ∧
               ((∃ v, x = NumberObj v) ∨ code inst = OP_PUSH_STR)) ∨
         (∃ c, s' = with_cout c (with_stack st s)))
  | Throw _ s' => ∃ st, st `prefix_of` stack s ∧ s' = with_stack st s
  | UB => True
  end.
Proof.
  assert (Hsame : ∀ f, ∃ st, st `prefix_of` stack s ∧
            ((∃ x, s = alloc_push x (with_stack st s) ∧
                   ((∃ v, x = NumberObj v) ∨ code inst = f)) ∨
             (∃ c, s = with_cout c (with_stack st s)))).
  { intros f. exists (stack s). split; [done|]. right. exists (cout s).
    by rewrite with_same. }
  assert (Hthrow : ∃ st, st `prefix_of` stack s ∧ s = with_stack st s).
  { exists (stack s). split; [done|]. by destruct s. }
  unfold exec. destruct (code inst) eqn:Hcode; try apply Hsame.
  - destruct (operand inst); try apply Hthrow.
    exists (stack s). split; [done|]. left. exists (NumberObj d).
    split; [by destruct s|]. left. by eexists.
  - destruct (operand inst) as [|t|]; try apply Hthrow.
    exists (stack s). split; [done|]. left. exists (StringObj t).
    split; [by destruct s|]. by right.
  - unfold bind at 1. pose proof (pop_spec s) as Hb.
    destruct (pop s) as [b s1| |]; [|by destruct Hb as (_ & -> & _)|done].
    destruct Hb as [Hs1 Hs1'].
    unfold bind at 1. pose proof (pop_spec s1) as Ha.
    destruct (pop s1) as [a s2| |]; [| |done].
    + destruct Ha as [Hs2 Hs2'].
      assert (Hpre : stack s2 `prefix_of` stack s).
      { rewrite Hs1, Hs2, <- app_assoc. by apply prefix_app_r. }
      assert (Hs2s : s2 = with_stack (stack s2) s).
      { rewrite Hs2', Hs1'. done. }
      unfold bind at 1. unfold number_value at 1.
      destruct (heap s2 !! a) as [[? [va|?]]|]; try done.
      unfold bind at 1. unfold number_value at 1.
      destruct (heap s2 !! b) as [[? [vb|?]]|]; try done.
      exists (stack s2). split; [done|]. left. exists (NumberObj (va + vb)).
      split; [|left; by eexists].
      unfold bind, ret, new_, push, track, alloc_push. simpl_state.
      rewrite Hs2s. simpl_state. done.
    + destruct Ha as (Hs1e & -> & _). exists (stack s1).
      split; [rewrite Hs1; by apply prefix_app_r|done].
  - unfold bind at 1. pose proof (pop_spec s) as Hb.
    destruct (pop s) as [b s1| |]; [|by destruct Hb as (_ & -> & _)|done].
    destruct Hb as [Hs1 Hs1'].
    unfold bind, print_obj, print_line, ret.
    destruct (heap s1 !! b) as [o|]; [|done].
    exists (stack s1). split; [rewrite Hs1; by apply prefix_app_r|].
    right. eexists. by rewrite Hs1' at 2.
  - exists (stack s). split; [done|]. right. exists (cout s ++ [LineHalted]).
    by destruct s.
Qed.

(** ** The order of the stack and the absence of leaks *)

Lemma filter_elem_of_sublist (l1 l2 : list nat) :
  NoDup l2 → l1 `sublist_of` l2 → filter (λ p, p ∈ l1) l2 = l1.
Proof.
  intros Hnd Hsub. induction Hsub as [|x l1 l2 Hsub IH|x l1 l2 Hsub IH].
  - done.
  - apply NoDup_cons in Hnd as [Hx Hnd].
    rewrite filter_cons_True by (by left). f_equal.
    trans (filter (λ p, p ∈ l1) l2); [|by apply IH].
    apply filter_ext_elem. intros y Hy.
    rewrite elem_of_cons. split; [|by right]. intros [->|]; done.
  - apply NoDup_cons in Hnd as [Hx Hnd].
    rewrite filter_cons_False; [by apply IH|].
    intros Hin. apply Hx. by eapply elem_of_sublist.
Qed.

Lemma machine_inv_new : machine_inv KryptonVM_new.
Proof.
  split; [apply vm_inv_new|]. split; [done|].
  intros p [o Ho]. simpl in Ho. by rewrite lookup_empty in Ho.
Qed.

Lemma machine_inv_prefix (s : State) (st : list ptr) :
  machine_inv s → st `prefix_of` stack s → machine_inv (with_stack st s).
Proof.
  intros (Hinv & Hsub & Hleak) [k Hk]. split; [|split; [|done]].
  - apply vm_inv_substack; [done|]. intros p Hp. rewrite Hk.
    apply elem_of_app. by left.
  - simpl_state. etrans; [|exact Hsub]. rewrite Hk. by apply sublist_inserts_r.
Qed.

Lemma machine_inv_cout (s : State) (c : list Line) :
  machine_inv s → machine_inv (with_cout c s).
Proof. done. Qed.

Lemma machine_inv_ip (s : State) (i : Z) :
  machine_inv s → machine_inv (with_ip i s).
Proof. done. Qed.

Lemma machine_inv_alloc_push (s : State) (x : Payload) :
  machine_inv s → machine_inv (alloc_push x s).
Proof.
  intros (Hinv & Hsub & Hleak). split; [|split].
  - pose proof (vm_inv_push_new s x Hinv) as H.
    by rewrite alloc_push_run in H.
  - unfold alloc_push. simpl_state. by apply sublist_app.
  - intros p. unfold alloc_push. simpl_state. rewrite lookup_insert.
    case_decide as Hp; intros Hsome; apply elem_of_app.
    + right. rewrite <- Hp. by left.
    + left. by apply Hleak.
Qed.

(** The [switch] keeps the invariant, also when it throws. *)
Lemma machine_inv_exec (inst : Instruction) (s : State) :
  machine_inv s →
  match exec inst s with
  | Ok _ s' | Throw _ s' => machine_inv s'
  | UB => True
  end.
Proof.
  intros Hinv. pose proof (exec_shape inst s) as Hshape.
  destruct (exec inst s) as [f s'|e s'|]; [| |done].
  - destruct Hshape as (st & Hpre & [(x & -> & _)|(c & ->)]).
    + by apply machine_inv_alloc_push, machine_inv_prefix.
    + by apply machine_inv_cout, machine_inv_prefix.
  - destruct Hshape as (st & Hpre & ->). by apply machine_inv_prefix.
Qed.

(** After [collect] with the stack as root set the tracked vector is the
    stack, and the invariant holds again. *)
Lemma machine_inv_collect (s s' : State) :
  machine_inv s → collect (stack s) s = Ok tt s' →
  machine_inv s' ∧ objects s' = stack s.
Proof.
  intros (Hinv & Hsub & Hleak) Hc.
  pose proof (vm_inv_collect s s' Hinv Hc) as Hinv'.
  destruct (collect_stack_spec s Hinv) as (h' & Hl & Hc').
  rewrite Hc' in Hc. injection Hc as <-. simpl_state.
  assert (Hobjs : filter (λ p, p ∈ stack s) (objects s) = stack s).
  { apply filter_elem_of_sublist; [by apply inv_nodup|done]. }
  split; [|done]. split; [done|]. split; simpl_state.
  - by rewrite Hobjs.
  - intros p. simpl_state. rewrite Hl, Hobjs.
    case_decide as Hd; [by intros []|]. intros Hp.
    destruct (decide (p ∈ stack s)); [done|]. exfalso. apply Hd.
    split; [by apply Hleak|done].
Qed.

Lemma machine_inv_loop_body (s : State) :
  machine_inv s →
  match loop_body s with
  | Ok _ s' | Throw _ s' => machine_inv s'
  | UB => True
  end.
Proof.
  intros Hinv. rewrite loop_body_unfold.
  destruct (bytecode s !! _) as [inst|]; [|done].
  pose proof (machine_inv_exec inst s Hinv) as Hinv1.
  destruct (exec inst s) as [[|] s1|e s1|]; [|done..].
  case_decide; [done|]. destruct (Z.rem (ip s1 + 1) 5 =? 0); [|done].
  destruct (collect _ _) as [[] s2|e s2|] eqn:Hc; [| |done].
  - by apply (machine_inv_collect (with_ip (ip s1 + 1) s1)).
  - by apply collect_no_throw in Hc.
Qed.

Lemma machine_inv_run_loop (fuel : nat) (s : State) :
  machine_inv s →
  match run_loop fuel s with
  | Some (Ok _ s') | Some (Throw _ s') => machine_inv s'
  | _ => True
  end.
Proof.
  revert s. induction fuel as [|fuel IH]; intros s Hinv; cbn [run_loop]; [done|].
  destruct (in_program s); [|done].
  pose proof (machine_inv_loop_body s Hinv) as Hinv1.
  destruct (loop_body s) as [[|] s1|e s1|]; try done. by apply IH.
Qed.

Lemma machine_inv_iterate (n : nat) (s s' : State) :
  machine_inv s → iterate n s = Some s' → machine_inv s'.
Proof.
  revert s. induction n as [|n IH]; intros s Hinv; cbn [iterate].
  - by intros [= <-].
  - destruct (in_program s); [|done].
    pose proof (machine_inv_loop_body s Hinv) as Hinv1.
    destruct (loop_body s) as [[|] s1| |]; try done. by apply IH.
Qed.

Lemma machine_inv_run (s : State) :
  machine_inv s →
  match run s with
  | Some (Ok _ s') | Some (Throw _ s') => machine_inv s'
  | _ => True
  end.
Proof.
  intros Hinv. unfold run, print_line.
  apply (machine_inv_run_loop _ (with_cout (cout s ++ [LineStarted]) s)).
  by apply machine_inv_cout.
Qed.

Lemma machine_inv_main_after (n : nat) : machine_inv (main_after n).
Proof.
  unfold main_after. destruct (iterate n (boot main_program)) as [s|] eqn:Hit.
  - apply (machine_inv_iterate n (boot main_program)); [|done].
    apply machine_inv_new.
  - apply machine_inv_new.
Qed.

Lemma reachable_machine (s : State) : reachable s → machine_inv s.
Proof.
  induction 1 as [|program s _ IH|s s' _ IH Hrun|s e s' _ IH Hrun].
  - apply machine_inv_new.
  - done.
  - pose proof (machine_inv_run s IH) as H. by rewrite Hrun in H.
  - pose proof (machine_inv_run s IH) as H. by rewrite Hrun in H.
Qed.

(** X1. In every state a machine can be in between the calls of its public
    members: no stack entry is null or dangling (each points to a live,
    unmarked, tracked object), the tracked pointers are pairwise distinct,
    the stack is the tracked vector with some entries left out (so its
    entries are distinct and in allocation order), every live object is
    tracked, and [ip] is a non-negative [int]. *)
Theorem reachable_machine_inv (s : State) :
  reachable s →
  (∀ p, p ∈ stack s →
     p ≠ nullptr ∧ p ∈ objects s ∧ ∃ o, heap s !! p = Some o ∧ marked o = false) ∧
  NoDup (objects s) ∧
  stack s `sublist_of` objects s ∧
  NoDup (stack s) ∧
  (∀ p, is_Some (heap s !! p) ↔ p ∈ objects s) ∧
  0 ≤ ip s ≤ INT_MAX.
Proof.
  intros Hr. pose proof (reachable_inv s Hr) as [_ Hok].
  destruct (reachable_machine s Hr) as (Hinv & Hsub & Hleak).
  split; [|split; [by apply inv_nodup|split; [done|split; [|split; [|done]]]]].
  - intros p Hp. pose proof (inv_stack s Hinv p Hp) as Ho.
    split; [by eapply vm_inv_tracked_nonnull|]. split; [done|].
    by apply inv_tracked.
  - eapply sublist_NoDup; [|exact Hsub]. by apply inv_nodup.
  - intros p. split; [apply Hleak|]. intros Hp.
    destruct (inv_tracked s Hinv p Hp) as (o & Ho & _). by eexists.
Qed.

Lemma reachable_main_final : reachable main_final.
Proof.
  apply (reachable_run_returned (boot main_program)).
  - apply reachable_loadProgram, reachable_new.
  - vm_compute. reflexivity.
Qed.

(** X1 on [main]: the machine after its [run]. *)
Lemma reachable_machine_inv_witness :
  let s := main_final in
  (∀ p, p ∈ stack s →
     p ≠ nullptr ∧ p ∈ objects s ∧ ∃ o, heap s !! p = Some o ∧ marked o = false) ∧
  NoDup (objects s) ∧
  stack s `sublist_of` objects s ∧
  NoDup (stack s) ∧
  (∀ p, is_Some (heap s !! p) ↔ p ∈ objects s) ∧
  0 ≤ ip s ≤ INT_MAX.
Proof. exact (reachable_machine_inv main_final reachable_main_final). Defined.

(** X2. After a collection with the stack as root set, from a state of the
    invariant, the tracked vector is the stack itself (same pointers, same
    order) and the free store holds the objects of the stack and no other:
    everything else that was allocated has been deleted. *)
Theorem collect_leaves_exactly_the_stack (s : State) :
  machine_inv s →
  ∃ s', collect (stack s) s = Ok tt s' ∧
    objects s' = stack s ∧
    ∀ p, is_Some (heap s' !! p) ↔ p ∈ stack s.
Proof.
  intros Hm. pose proof Hm as (Hinv & _ & _).
  destruct (collect_stack_spec s Hinv) as (h' & _ & Hc).
  eexists. split; [exact Hc|].
  destruct (machine_inv_collect s _ Hm Hc) as ((Hinv' & _ & Hleak') & Hobjs).
  split; [exact Hobjs|]. intros p. rewrite <- Hobjs. split; [apply Hleak'|].
  intros Hp. destruct (inv_tracked _ Hinv' p Hp) as (o & Ho & _). by eexists.
Qed.

Lemma collect_leaves_exactly_the_stack_witness :
  let s := main_after 4 in
  ∃ s', collect (stack s) s = Ok tt s' ∧
    objects s' = stack s ∧
    ∀ p, is_Some (heap s' !! p) ↔ p ∈ stack s.
Proof.
  exact (collect_leaves_exactly_the_stack (main_after 4) (machine_inv_main_after 4)).
Defined.

(** ** The destructor of the collector *)

Lemma destroy_spec (objs : list ptr) (h : gmap nat GCObject) :
  NoDup objs →
  (∀ p, p ∈ objs → is_Some (h !! p)) →
  h !! nullptr = None →
  ∃ h', destroy objs h = Some h' ∧
    ∀ p, h' !! p = if decide (p ∈ objs) then None else h !! p.
Proof.
  revert h. induction objs as [|obj rest IH]; intros h Hnd Hlive Hnull.
  - exists h. split; [done|]. intros p. case_decide as Hp; [|done].
    by apply not_elem_of_nil in Hp.
  - cbn [destroy]. apply NoDup_cons in Hnd as [Hnotin Hnd].
    destruct (Hlive obj) as [o Ho]; [by left|].
    destruct (decide (obj = nullptr)) as [->|Hnn]; [congruence|]. rewrite Ho.
    destruct (IH (delete obj h) Hnd) as (h' & Hd & Hl).
    { intros p Hp. rewrite lookup_delete_ne; [|by intros ->].
      apply Hlive. by right. }
    { rewrite lookup_delete_ne by done. done. }
    exists h'. split; [done|]. intros p. rewrite Hl.
    destruct (decide (p = obj)) as [->|Hpo].
    + rewrite (decide_False (P := obj ∈ rest)) by done.
      rewrite (decide_True (P := obj ∈ obj :: rest)) by (by left).
      by rewrite lookup_delete_eq.
    + rewrite lookup_delete_ne by done.
      apply decide_ext. rewrite elem_of_cons. intuition congruence.
Qed.

(** X3. Destroying the collector of a machine in a state of the invariant
    deletes every object exactly once: no pointer is deleted twice or after
    its object is gone, and the free store is empty afterwards. *)
Theorem destroy_frees_everything (s : State) :
  machine_inv s → destroy (objects s) (heap s) = Some ∅.
Proof.
  intros (Hinv & _ & Hleak).
  destruct (destroy_spec (objects s) (heap s)) as (h' & Hd & Hl).
  { by apply inv_nodup. }
  { intros p Hp. destruct (inv_tracked s Hinv p Hp) as (o & Ho & _). by eexists. }
  { by apply inv_null. }
  rewrite Hd. f_equal. apply map_eq. intros p. rewrite Hl, lookup_empty.
  case_decide as Hp; [done|]. apply eq_None_not_Some. intros Hsome.
  by apply Hp, Hleak.
Qed.

Lemma destroy_frees_everything_witness :
  destroy (objects main_final) (heap main_final) = Some ∅.
Proof.
  apply (destroy_frees_everything main_final).
  exact (reachable_machine main_final reachable_main_final).
Defined.

(** ** Control flow of [run] *)

Lemma iterate_in_program (n : nat) (s s' : State) :
  ip_ok s → iterate (S n) s = Some s' → ip s' ≤ size s.
Proof.
  revert s. induction n as [|n IH]; intros s Hok Hit.
  - cbn [iterate] in Hit. destruct (in_program s) eqn:Hin; [|done].
    destruct (loop_body s) as [[|] s1| |] eqn:Hb; try done.
    injection Hit as <-.
    apply loop_body_Break_frame in Hb as (Hip & _ & _).
    unfold in_program in Hin. rewrite to_size_t_ip in Hin by done.
    apply Z.ltb_lt in Hin. lia.
  - cbn [iterate] in Hit. destruct (in_program s) eqn:Hin; [|done].
    destruct (loop_body s) as [[|] s1| |] eqn:Hb; try done.
    apply loop_body_Break_frame in Hb as (Hip & Hmax & Hbc).
    assert (Hok1 : ip_ok s1) by (unfold ip_ok in *; lia).
    pose proof (IH s1 Hok1 Hit) as Hle. unfold size in *. by rewrite Hbc in Hle.
Qed.

(** X4. [run] executes the program in order, one instruction after the
    other, and ends: from a state whose [ip] is a non-negative [int] it has
    an outcome, and after [n] iterations [ip] has advanced by exactly [n],
    the program is the same and [ip] is at most the size of the program.
    [OP_JUMP] and [OP_JUMP_IF_FALSE] transfer no control; no instruction
    runs twice. *)
Theorem run_is_linear_and_ends (s : State) :
  ip_ok s →
  (∃ r, run s = Some r) ∧
  ∀ n s', iterate n s = Some s' →
    ip s' = ip s + Z.of_nat n ∧
    bytecode s' = bytecode s ∧
    ((0 < n)%nat → ip s' ≤ size s).
Proof.
  intros Hok. split; [by apply run_returns|].
  intros n s' Hit. destruct (iterate_frame n s s' Hok Hit) as (Hip & Hbc & _).
  split; [done|]. split; [done|]. intros Hn.
  destruct n as [|n]; [lia|]. by eapply iterate_in_program.
Qed.

Lemma run_is_linear_and_ends_witness :
  let s := boot main_program in
  (∃ r, run s = Some r) ∧
  ∀ n s', iterate n s = Some s' →
    ip s' = ip s + Z.of_nat n ∧
    bytecode s' = bytecode s ∧
    ((0 < n)%nat → ip s' ≤ size s).
Proof.
  apply (run_is_linear_and_ends (boot main_program)).
  unfold ip_ok, INT_MAX. simpl. lia.
Defined.

(** ** Number of collection cycles of a run *)

Lemma fifth_step (i : Z) :
  0 ≤ i → (i + 1) / 5 - i / 5 = if Z.rem (i + 1) 5 =? 0 then 1 else 0.
Proof.
  intros Hi. rewrite Z.rem_mod_nonneg by lia.
  destruct (Z.eqb_spec ((i + 1) mod 5) 0);
    Z.to_euclidean_division_equations; lia.
Qed.

(** One iteration reports a cycle exactly when it takes [ip] to a multiple
    of 5; [ip] and the number of cycles stay when it returns or throws. *)
Lemma loop_body_gc_cycles (s : State) :
  ip_ok s →
  match loop_body s with
  | Ok Break s' =>
      ip s' = ip s + 1 ∧
      Z.of_nat (gc_cycles (cout s')) =
        Z.of_nat (gc_cycles (cout s)) + ((ip s + 1) / 5 - ip s / 5)
  | Ok Return s' | Throw _ s' =>
      ip s' = ip s ∧ gc_cycles (cout s') = gc_cycles (cout s)
  | UB => True
  end.
Proof.
  intros Hok. rewrite loop_body_unfold.
  destruct (bytecode s !! _) as [inst|]; [|done].
  pose proof (exec_frame inst s) as Hf.
  pose proof (exec_gc_cycles inst s) as Hg.
  destruct (exec inst s) as [[|] s1|e s1|]; [| |by destruct Hf|done].
  - destruct Hf as [Hip _]. case_decide; [done|].
    rewrite fifth_step by (unfold ip_ok in Hok; lia). rewrite <- Hip.
    destruct (Z.rem (ip s1 + 1) 5 =? 0).
    + destruct (collect _ _) as [[] s2|e s2|] eqn:Hc; [| |done].
      * apply collect_frame in Hc as (_ & _ & -> & ->). simpl_state.
        rewrite gc_cycles_snoc. cbn [is_gc_line]. lia.
      * by apply collect_no_throw in Hc.
    + simpl_state. lia.
  - by destruct Hf.
Qed.

Lemma run_loop_gc_cycles (fuel : nat) (s : State) :
  ip_ok s →
  match run_loop fuel s with
  | Some (Ok _ s') | Some (Throw _ s') =>
      ip s ≤ ip s' ∧
      Z.of_nat (gc_cycles (cout s')) =
        Z.of_nat (gc_cycles (cout s)) + (ip s' / 5 - ip s / 5)
  | _ => True
  end.
Proof.
  revert s. induction fuel as [|fuel IH]; intros s Hok; cbn [run_loop]; [done|].
  destruct (in_program s); [|split; lia].
  pose proof (loop_body_gc_cycles s Hok) as Hb.
  destruct (loop_body s) as [[|] s1|e s1|] eqn:Hlb; [| | |done].
  - destruct Hb as [Hip Hgc].
    apply loop_body_Break_frame in Hlb as (_ & Hmax & _).
    assert (Hok1 : ip_ok s1) by (unfold ip_ok in *; lia).
    pose proof (IH s1 Hok1) as H1.
    destruct (run_loop fuel s1) as [[[] s2|e s2|]|]; try done;
      destruct H1 as [Hle H1]; (split; [lia|]); rewrite H1, Hgc, Hip; lia.
  - destruct Hb as [-> ->]. split; lia.
  - destruct Hb as [-> ->]. split; lia.
Qed.

(** X5. A [run] that returns or throws has reported one collection cycle
    for each multiple of 5 that [ip] has reached on its way: with [ip] going
    from [i] to [j], the number of cycles grows by [j / 5 - i / 5]. From a
    new machine a run that ends at [ip = j] has collected [j / 5] times. *)
Theorem run_gc_cycles (s : State) :
  ip_ok s →
  match run s with
  | Some (Ok _ s') | Some (Throw _ s') =>
      ip s ≤ ip s' ∧
      Z.of_nat (gc_cycles (cout s')) =
        Z.of_nat (gc_cycles (cout s)) + (ip s' / 5 - ip s / 5)
  | _ => True
  end.
Proof.
  intros Hok. unfold run, print_line.
  pose proof (run_loop_gc_cycles (S (length (bytecode s)))
                (with_cout (cout s ++ [LineStarted]) s) Hok) as H.
  simpl_state. rewrite gc_cycles_snoc in H. cbn [is_gc_line] in H.
  destruct (run_loop _ _) as [[[] s'|e s'|]|]; try done.
  - destruct H as [? ->]. split; [done|]. lia.
  - destruct H as [? ->]. split; [done|]. lia.
Qed.

Lemma run_gc_cycles_witness :
  let s := boot main_program in
  match run s with
  | Some (Ok _ s') | Some (Throw _ s') =>
      ip s ≤ ip s' ∧
      Z.of_nat (gc_cycles (cout s')) =
        Z.of_nat (gc_cycles (cout s)) + (ip s' / 5 - ip s / 5)
  | _ => True
  end.
Proof.
  apply (run_gc_cycles (boot main_program)).
  unfold ip_ok, INT_MAX. simpl. lia.
Defined.

(** ** Operand types of [OP_ADD] *)

Lemma exec_ADD_confused (inst : Instruction) (s : State) (st : list ptr)
    (pa pb : ptr) (oa ob : GCObject) :
  code inst = OP_ADD →
  stack s = st ++ [pa; pb] →
  heap s !! pa = Some oa →
  heap s !! pb = Some ob →
  (∃ t, payload oa = StringObj t) ∨ (∃ t, payload ob = StringObj t) →
  exec inst s = UB.
Proof.
  intros Hcode Hst Ha Hb Hstr. unfold exec. rewrite Hcode.
  unfold bind at 1. rewrite (pop_snoc s (st ++ [pa]) pb) by (by rewrite Hst, <- app_assoc).
  unfold bind at 1. rewrite (pop_snoc _ st pa) by done.
  unfold bind at 1. unfold number_value at 1. simpl_state. rewrite Ha.
  destruct oa as [ma [va|ta]]; [|done].
  unfold bind at 1. unfold number_value at 1. simpl_state. rewrite Hb.
  destruct ob as [mb [vb|tb]]; [|done].
  destruct Hstr as [[t Ht]|[t Ht]]; discriminate Ht.
Qed.

(** X6. [OP_ADD] does not check the class of its operands: when one of the
    two top entries of the stack points to a [StringObj], no exception is
    thrown; the [value] is read through the pointer cast to [NumberObj*],
    which is undefined behaviour, and that is the outcome of [run]. *)
Theorem ADD_on_string_is_undefined (inst : Instruction) (s : State)
    (st : list ptr) (pa pb : ptr) (oa ob : GCObject) :
  in_program s = true →
  fetch s = Ok inst s →
  code inst = OP_ADD →
  stack s = st ++ [pa; pb] →
  heap s !! pa = Some oa →
  heap s !! pb = Some ob →
  (∃ t, payload oa = StringObj t) ∨ (∃ t, payload ob = StringObj t) →
  exec inst s = UB ∧ loop_body s = UB ∧ run s = Some UB.
Proof.
  intros Hin Hfetch Hcode Hst Ha Hb Hstr.
  pose proof (exec_ADD_confused inst s st pa pb oa ob Hcode Hst Ha Hb Hstr) as He.
  unfold fetch in Hfetch.
  destruct (bytecode s !! Z.to_nat (to_size_t (ip s))) as [inst'|] eqn:Hf; [|done].
  injection Hfetch as ->.
  split; [done|]. split.
  - rewrite loop_body_unfold, Hf, He. done.
  - unfold run, print_line. cbn [run_loop].
    set (s1 := with_cout (cout s ++ [LineStarted]) s).
    assert (in_program s1 = true) as -> by done.
    rewrite loop_body_unfold.
    change (bytecode s1) with (bytecode s). change (ip s1) with (ip s).
    rewrite Hf.
    rewrite (exec_ADD_confused inst s1 st pa pb oa ob Hcode Hst Ha Hb Hstr).
    done.
Qed.

Lemma ADD_on_string_is_undefined_witness :
  let s := boot_after 2 string_add_program in
  let inst := mkInstruction OP_ADD (in_double 0) in
  exec inst s = UB ∧ loop_body s = UB ∧ run s = Some UB.
Proof.
  apply (ADD_on_string_is_undefined (mkInstruction OP_ADD (in_double 0))
           (boot_after 2 string_add_program) [] 1%nat 2%nat
           (mkGCObject false (StringObj "a")) (mkGCObject false (NumberObj 1))).
  - vm_compute. reflexivity.
  - vm_compute. reflexivity.
  - reflexivity.
  - vm_compute. reflexivity.
  - vm_compute. reflexivity.
  - vm_compute. reflexivity.
  - left. exists "a". reflexivity.
Defined.

(** ** Programs whose behaviour is defined *)

Lemma all_numbers_alloc_push (s : State) (x : Payload) :
  all_numbers s → (∃ v, x = NumberObj v) → all_numbers (alloc_push x s).
Proof.
  intros Hall Hx p o. unfold alloc_push. simpl_state. rewrite lookup_insert.
  case_decide; [|by apply Hall]. by intros [= <-].
Qed.

Lemma all_numbers_collect (s s' : State) :
  vm_inv s → all_numbers s → collect (stack s) s = Ok tt s' → all_numbers s'.
Proof.
  intros Hinv Hall Hc. destruct (collect_stack_spec s Hinv) as (h' & Hl & Hc').
  rewrite Hc' in Hc. injection Hc as <-. intros p o. simpl_state. rewrite Hl.
  case_decide; [done|]. by apply Hall.
Qed.

Lemma no_confusion_exec (inst : Instruction) (s : State) :
  inst ∈ bytecode s → no_confusion s →
  match exec inst s with
  | Ok _ s' | Throw _ s' => no_confusion s'
  | UB => True
  end.
Proof.
  intros Hin Hnc. pose proof (exec_shape inst s) as Hshape.
  pose proof (exec_frame inst s) as Hframe.
  destruct (exec inst s) as [f s'|e s'|]; [| |done]; destruct Hframe as [_ Hbc];
    (destruct Hnc as [[Hall Hw]|Hw]; [left|right; by rewrite Hbc]);
    (split; [|by rewrite Hbc]).
  - destruct Hshape as (st & _ & [(x & -> & Hx)|(c & ->)]); [|done].
    apply all_numbers_alloc_push; [done|]. destruct Hx as [Hx|Hx]; [done|].
    unfold without in Hw. rewrite Forall_forall in Hw. by destruct (Hw inst Hin).
  - by destruct Hshape as (st & _ & ->).
Qed.

(** With live stack entries, and numbers where [OP_ADD] reads, the
    [switch] has defined behaviour. *)
Lemma exec_defined (inst : Instruction) (s : State) :
  vm_inv s → inst ∈ bytecode s → no_confusion s → exec inst s ≠ UB.
Proof.
  intros Hinv Hin Hnc.
  assert (Hlive : ∀ p, p ∈ stack s → ∃ o, heap s !! p = Some o).
  { intros p Hp. destruct (inv_tracked s Hinv p (inv_stack s Hinv p Hp)) as (o & Ho & _).
    by exists o. }
  unfold exec. destruct (code inst) eqn:Hcode; try done.
  - destruct (operand inst); done.
  - destruct (operand inst); done.
  - destruct Hnc as [[Hall _]|Hw];
      [|unfold without in Hw; rewrite Forall_forall in Hw; by destruct (Hw inst Hin)].
    unfold bind at 1. pose proof (pop_spec s) as Hb.
    destruct (pop s) as [b s1| |]; [|done..]. destruct Hb as [Hs1 Hs1'].
    unfold bind at 1. pose proof (pop_spec s1) as Ha.
    destruct (pop s1) as [a s2| |]; [|done..]. destruct Ha as [Hs2 Hs2'].
    assert (Hheap : heap s2 = heap s) by (by rewrite Hs2', Hs1').
    destruct (Hlive a) as [oa Hoa].
    { rewrite Hs1, Hs2. apply elem_of_app. left. apply elem_of_app. right. by left. }
    destruct (Hlive b) as [ob Hob].
    { rewrite Hs1. apply elem_of_app. right. by left. }
    destruct (Hall a oa Hoa) as [va Hva]. destruct (Hall b ob Hob) as [vb Hvb].
    unfold bind at 1. unfold number_value at 1. rewrite Hheap, Hoa.
    destruct oa as [ma xa]. simpl in Hva. subst xa.
    unfold bind at 1. unfold number_value at 1. rewrite Hheap, Hob.
    destruct ob as [mb xb]. simpl in Hvb. subst xb. done.
  - unfold bind at 1. pose proof (pop_spec s) as Hb.
    destruct (pop s) as [b s1| |]; [|done..]. destruct Hb as [Hs1 Hs1'].
    destruct (Hlive b) as [ob Hob].
    { rewrite Hs1. apply elem_of_app. right. by left. }
    unfold bind, print_obj, print_line, ret. rewrite Hs1'. simpl_state.
    by rewrite Hob.
Qed.

Lemma loop_body_defined (s : State) :
  vm_inv s → ip_ok s → size s ≤ INT_MAX → no_confusion s →
  in_program s = true →
  loop_body s ≠ UB ∧
  match loop_body s with
  | Ok _ s' | Throw _ s' => no_confusion s'
  | UB => True
  end.
Proof.
  intros Hinv Hok Hsize Hnc Hin. rewrite loop_body_unfold.
  unfold in_program in Hin. rewrite to_size_t_ip in * by done.
  apply Z.ltb_lt in Hin. unfold size in *.
  destruct (bytecode s !! Z.to_nat (ip s)) as [inst|] eqn:Hf.
  2:{ apply lookup_ge_None in Hf. unfold ip_ok in Hok. lia. }
  assert (Hinst : inst ∈ bytecode s) by (by eapply list_elem_of_lookup_2).
  pose proof (exec_defined inst s Hinv Hinst Hnc) as Hdef.
  pose proof (no_confusion_exec inst s Hinst Hnc) as Hnc1.
  pose proof (exec_frame inst s) as Hframe.
  pose proof (vm_inv_exec inst s Hinv) as Hinv1.
  destruct (exec inst s) as [[|] s1|e s1|]; [|done..].
  destruct Hframe as [Hip Hbc].
  rewrite decide_False by lia.
  destruct (Z.rem (ip s1 + 1) 5 =? 0); [|done].
  destruct (collect_stack_spec (with_ip (ip s1 + 1) s1)) as (h' & Hl & Hc); [done|].
  simpl_state. rewrite Hc. split; [done|].
  destruct Hnc1 as [[Hall Hw]|Hw]; [left|by right].
  split; [|done]. by apply (all_numbers_collect (with_ip (ip s1 + 1) s1) _ Hinv1 Hall Hc).
Qed.

Lemma run_loop_defined (fuel : nat) (s : State) :
  vm_inv s → ip_ok s → size s ≤ INT_MAX → no_confusion s →
  run_loop fuel s ≠ Some UB.
Proof.
  revert s. induction fuel as [|fuel IH]; intros s Hinv Hok Hsize Hnc;
    cbn [run_loop]; [done|].
  destruct (in_program s) eqn:Hin; [|done].
  destruct (loop_body_defined s Hinv Hok Hsize Hnc Hin) as [Hdef Hnc1].
  pose proof (vm_inv_loop_body s Hinv) as Hinv1.
  destruct (loop_body s) as [[|] s1|e s1|] eqn:Hb; [|done..].
  apply loop_body_Break_frame in Hb as (Hip & Hmax & Hbc).
  apply IH; [done| |by unfold size in *; rewrite Hbc|done].
  unfold ip_ok in *. lia.
Qed.

(** X7. Type confusion is the only undefined behaviour of a program that
    fits an [int]: from a state of the invariant, when the free store holds
    no string and the program no [OP_PUSH_STR], or the program holds no
    [OP_ADD], [run] ends and its outcome is a normal return or an exception,
    never undefined behaviour: no dangling or null pointer is read, no
    object is deleted twice, [bytecode] is not indexed out of range and
    [ip] does not overflow. *)
Theorem run_has_defined_behaviour (s : State) :
  vm_inv s →
  ip_ok s →
  size s ≤ INT_MAX →
  (all_numbers s ∧ without OP_PUSH_STR (bytecode s)) ∨
    without OP_ADD (bytecode s) →
  ∃ r, run s = Some r ∧ r ≠ UB.
Proof.
  intros Hinv Hok Hsize Hnc. destruct (run_returns s Hok) as [r Hr].
  exists r. split; [done|]. intros ->. revert Hr. unfold run, print_line.
  by apply run_loop_defined.
Qed.

Lemma run_has_defined_behaviour_witness :
  ∃ r, run (boot (print_program thirty)) = Some r ∧ r ≠ UB.
Proof.
  apply (run_has_defined_behaviour (boot (print_program thirty))).
  - apply (bool_decide_unpack _). vm_compute. exact I.
  - unfold ip_ok, INT_MAX. simpl. lia.
  - vm_compute. discriminate.
  - left. split.
    + intros p o Ho. simpl in Ho. rewrite lookup_empty in Ho. discriminate Ho.
    + unfold without. vm_compute. repeat (constructor; [discriminate|]). constructor.
Defined.

(** ** Sums in postfix order *)

Lemma assemble_app (e : Expr) (program : list Instruction) :
  assemble e program = program ++ assemble e [].
Proof.
  revert program. induction e as [v|e1 IH1 e2 IH2]; intros program; cbn [assemble].
  - done.
  - unfold emit. rewrite (IH2 (assemble e1 program)), (IH2 (assemble e1 [])).
    rewrite (IH1 program). by rewrite <- !app_assoc.
Qed.

Lemma assemble_Add (e1 e2 : Expr) :
  assemble (Add e1 e2) [] =
    assemble e1 [] ++ assemble e2 [] ++ [mkInstruction OP_ADD (in_double 0)].
Proof.
  cbn [assemble]. unfold emit. rewrite (assemble_app e2). by rewrite <- app_assoc.
Qed.

Lemma iterate_add (n m : nat) (s s1 : State) :
  iterate n s = Some s1 → iterate (n + m) s = iterate m s1.
Proof.
  revert s. induction n as [|n IH]; intros s; cbn [iterate Nat.add].
  - by intros [= <-].
  - destruct (in_program s); [|done].
    destruct (loop_body s) as [[|] s'| |]; try done. apply IH.
Qed.

Lemma iterate_one (s s' : State) :
  in_program s = true → loop_body s = Ok Break s' → iterate 1 s = Some s'.
Proof. intros Hin Hb. cbn [iterate]. by rewrite Hin, Hb. Qed.

Lemma printed_snoc_gc (out : list Line) : printed (out ++ [LineGC]) = printed out.
Proof.
  unfold printed. rewrite filter_app, filter_cons_False, filter_nil, app_nil_r; [done|].
  intros H. by apply H.
Qed.

Lemma vm_inv_stack_live (s : State) (q : ptr) :
  vm_inv s → q ∈ stack s → is_Some (heap s !! q).
Proof.
  intros Hinv Hq.
  destruct (inv_tracked s Hinv q (inv_stack s Hinv q Hq)) as (o & Ho & _).
  by exists o.
Qed.

(** What [push(new T(...))] leaves: one more stack entry, pointing to the
    new unmarked object; the objects of the old entries are as before. *)
Lemma alloc_push_spec (x : Payload) (s : State) :
  vm_inv s →
  stack (alloc_push x s) = stack s ++ [new_addr (heap s)] ∧
  heap (alloc_push x s) !! new_addr (heap s) = Some (mkGCObject false x) ∧
  (∀ q, q ∈ stack s → heap (alloc_push x s) !! q = heap s !! q) ∧
  vm_inv (alloc_push x s).
Proof.
  intros Hinv. unfold alloc_push at 1 2 3. simpl_state.
  split; [done|]. split; [by rewrite lookup_insert_eq|]. split.
  - intros q Hq. rewrite lookup_insert_ne; [done|]. intros <-.
    destruct (vm_inv_stack_live s _ Hinv Hq) as [o Ho].
    destruct (new_addr_fresh (heap s)) as [_ Hfree]. congruence.
  - pose proof (vm_inv_push_new s x Hinv) as H. by rewrite alloc_push_run in H.
Qed.

(** The instruction at [ip] when the program is [pre ++ inst :: post] and
    [ip] is the length of [pre]. *)
Lemma fetch_at (s : State) (pre post : list Instruction) (inst : Instruction) :
  ip_ok s → size s ≤ INT_MAX →
  bytecode s = pre ++ inst :: post →
  ip s = Z.of_nat (length pre) →
  in_program s = true ∧
  bytecode s !! Z.to_nat (to_size_t (ip s)) = Some inst ∧
  ip s ≠ INT_MAX.
Proof.
  intros Hok Hsize Hbc Hip. unfold in_program, size in *.
  rewrite to_size_t_ip by done. rewrite Hbc in *.
  rewrite length_app in Hsize. cbn [length] in Hsize.
  split; [|split].
  - apply Z.ltb_lt. rewrite length_app. cbn [length]. lia.
  - rewrite Hip, Nat2Z.id. rewrite lookup_app_r by lia.
    by rewrite Nat.sub_diag.
  - lia.
Qed.

(** The rest of an iteration after the [switch]: the increment and the
    collection, if any, keep the stack and the objects of its entries, and
    print nothing but the report of the collector. *)
Lemma loop_body_finish (s s1 : State) (inst : Instruction) :
  bytecode s !! Z.to_nat (to_size_t (ip s)) = Some inst →
  exec inst s = Ok Break s1 →
  vm_inv s1 → ip s ≠ INT_MAX →
  ∃ s', loop_body s = Ok Break s' ∧
    stack s' = stack s1 ∧
    (∀ q, q ∈ stack s1 → heap s' !! q = heap s1 !! q) ∧
    printed (cout s') = printed (cout s1) ∧
    vm_inv s'.
Proof.
  intros Hf He Hinv1 Hmax. rewrite loop_body_unfold, Hf, He.
  pose proof (exec_frame inst s) as Hframe. rewrite He in Hframe.
  destruct Hframe as [Hip _]. rewrite decide_False by congruence.
  destruct (Z.rem (ip s1 + 1) 5 =? 0).
  - destruct (collect_stack_spec (with_ip (ip s1 + 1) s1)) as (h' & Hl & Hc); [done|].
    simpl_state. rewrite Hc. eexists. split; [done|]. simpl_state.
    split; [done|]. split; [|split].
    + intros q Hq. rewrite Hl. rewrite decide_False; [done|]. intuition.
    + apply printed_snoc_gc.
    + by apply (vm_inv_collect (with_ip (ip s1 + 1) s1) _ Hinv1 Hc).
  - eexists. split; [done|]. simpl_state. done.
Qed.

Lemma exec_PUSH_NUM (v : float) (s : State) :
  exec (mkInstruction OP_PUSH_NUM (in_double v)) s =
    Ok Break (alloc_push (NumberObj v) s).
Proof. reflexivity. Qed.

Lemma exec_ADD_numbers (s : State) (st : list ptr) (pa pb : ptr)
    (ma mb : bool) (a b : float) (v : Operand) :
  stack s = st ++ [pa; pb] →
  heap s !! pa = Some (mkGCObject ma (NumberObj a)) →
  heap s !! pb = Some (mkGCObject mb (NumberObj b)) →
  exec (mkInstruction OP_ADD v) s =
    Ok Break (alloc_push (NumberObj (a + b)) (with_stack st s)).
Proof.
  intros Hst Ha Hb. unfold exec. cbn [code].
  unfold bind at 1. rewrite (pop_snoc s (st ++ [pa]) pb) by (by rewrite Hst, <- app_assoc).
  unfold bind at 1. rewrite (pop_snoc _ st pa) by done.
  unfold bind, number_value, new_, push, track, ret. simpl_state.
  rewrite Ha. cbn beta iota. simpl_state. rewrite Hb. reflexivity.
Qed.

(** Running the program of a sum, wherever it lies in the loaded program
    and whatever collections fall into it. *)
Lemma assemble_steps (e : Expr) :
  ∀ (s : State) (pre post : list Instruction),
    vm_inv s → ip_ok s → size s ≤ INT_MAX →
    bytecode s = pre ++ assemble e [] ++ post →
    ip s = Z.of_nat (length pre) →
    ∃ s' p,
      iterate (length (assemble e [])) s = Some s' ∧
      stack s' = stack s ++ [p] ∧
      heap s' !! p = Some (mkGCObject false (NumberObj (eval e))) ∧
      (∀ q, q ∈ stack s → heap s' !! q = heap s !! q) ∧
      printed (cout s') = printed (cout s) ∧
      vm_inv s'.
Proof.
  induction e as [v|e1 IH1 e2 IH2]; intros s pre post Hinv Hok Hsize Hbc Hip.
  - cbn [assemble] in *. unfold emit_double in *. rewrite app_nil_l in *.
    cbn [length app] in *.
    destruct (fetch_at s pre post _ Hok Hsize Hbc Hip) as (Hin & Hf & Hmax).
    destruct (alloc_push_spec (NumberObj v) s Hinv) as (Hst & Hcell & Hframe & Hinv1).
    destruct (loop_body_finish s _ _ Hf (exec_PUSH_NUM v s) Hinv1 Hmax)
      as (s' & Hb & Hst' & Hframe' & Hpr & Hinv').
    exists s', (new_addr (heap s)).
    split; [by apply iterate_one|]. split; [congruence|]. split; [|split; [|done]].
    + rewrite Hframe'; [done|]. rewrite Hst. apply elem_of_app. right. by left.
    + intros q Hq. rewrite Hframe'; [by apply Hframe|].
      rewrite Hst. apply elem_of_app. by left.
  - rewrite assemble_Add in *. rewrite !length_app. cbn [length].
    set (add := mkInstruction OP_ADD (in_double 0)) in *.
    (* the first operand *)
    destruct (IH1 s pre (assemble e2 [] ++ [add] ++ post) Hinv Hok Hsize)
      as (s1 & p1 & Hit1 & Hst1 & Hcell1 & Hframe1 & Hpr1 & Hinv1).
    { by rewrite Hbc, <- !app_assoc. }
    { done. }
    destruct (iterate_frame _ _ _ Hok Hit1) as (Hip1 & Hbc1 & Hok1).
    (* the second operand *)
    destruct (IH2 s1 (pre ++ assemble e1 []) ([add] ++ post) Hinv1 Hok1)
      as (s2 & p2 & Hit2 & Hst2 & Hcell2 & Hframe2 & Hpr2 & Hinv2).
    { unfold size in *. by rewrite Hbc1. }
    { by rewrite Hbc1, Hbc, <- !app_assoc. }
    { rewrite Hip1, Hip, length_app. lia. }
    destruct (iterate_frame _ _ _ Hok1 Hit2) as (Hip2 & Hbc2 & Hok2).
    (* the addition *)
    assert (Hst2' : stack s2 = stack s ++ [p1; p2]).
    { by rewrite Hst2, Hst1, <- app_assoc. }
    assert (Hp1 : heap s2 !! p1 = Some (mkGCObject false (NumberObj (eval e1)))).
    { rewrite Hframe2; [done|]. rewrite Hst1. apply elem_of_app. right. by left. }
    pose proof (exec_ADD_numbers s2 (stack s) p1 p2 false false _ _ (in_double 0)
                  Hst2' Hp1 Hcell2) as Hadd.
    fold add in Hadd.
    destruct (fetch_at s2 (pre ++ assemble e1 [] ++ assemble e2 []) post add)
      as (Hin3 & Hf3 & Hmax3).
    { done. }
    { unfold size in *. by rewrite Hbc2, Hbc1. }
    { by rewrite Hbc2, Hbc1, Hbc, <- !app_assoc. }
    { rewrite Hip2, Hip1, Hip, !length_app. lia. }
    assert (Hinv2s : vm_inv (with_stack (stack s) s2)).
    { apply vm_inv_substack; [done|]. intros q Hq. rewrite Hst2'.
      apply elem_of_app. by left. }
    destruct (alloc_push_spec (NumberObj (eval e1 + eval e2)) _ Hinv2s)
      as (Hst3 & Hcell3 & Hframe3 & Hinv3).
    simpl_state.
    destruct (loop_body_finish s2 _ _ Hf3 Hadd Hinv3 Hmax3)
      as (s3 & Hb3 & Hst3' & Hframe3' & Hpr3 & Hinv3').
    exists s3, (new_addr (heap s2)).
    split; [|split; [congruence|split; [|split; [|split; [|done]]]]].
    + rewrite (iterate_add _ _ s s1 Hit1).
      rewrite (iterate_add _ _ s1 s2 Hit2). by apply iterate_one.
    + rewrite Hframe3'; [done|]. rewrite Hst3. apply elem_of_app. right. by left.
    + intros q Hq. rewrite Hframe3'.
      2:{ rewrite Hst3. apply elem_of_app. by left. }
      rewrite Hframe3 by done. simpl_state.
      rewrite Hframe2.
      2:{ rewrite Hst1. apply elem_of_app. by left. }
      by apply Hframe1.
    + rewrite Hpr3. unfold alloc_push. simpl_state. congruence.
Qed.

(** X8. A sum of numbers assembled in postfix order ([OP_PUSH_NUM] for a
    number, the two operands and then [OP_ADD] for a sum) is evaluated by
    the loop of [run] wherever it lies in the program: after as many
    iterations as it has instructions, the stack has one more entry, which
    points to a [NumberObj] holding the binary64 value of the sum; the
    objects of the entries below are as before and nothing was printed but
    reports of the collector. Collections that fall into the evaluation
    take no operand away. *)
Theorem sum_is_evaluated (e : Expr) (s : State) (pre post : list Instruction) :
  vm_inv s → ip_ok s → size s ≤ INT_MAX →
  bytecode s = pre ++ assemble e [] ++ post →
  ip s = Z.of_nat (length pre) →
  ∃ s' p,
    iterate (length (assemble e [])) s = Some s' ∧
    stack s' = stack s ++ [p] ∧
    heap s' !! p = Some (mkGCObject false (NumberObj (eval e))) ∧
    (∀ q, q ∈ stack s → heap s' !! q = heap s !! q) ∧
    printed (cout s') = printed (cout s).
Proof.
  intros Hinv Hok Hsize Hbc Hip.
  destruct (assemble_steps e s pre post Hinv Hok Hsize Hbc Hip)
    as (s' & p & H1 & H2 & H3 & H4 & H5 & _).
  by exists s', p.
Qed.

(** X8 on [main]: its first three instructions are the sum 10 + 20. *)
Lemma sum_is_evaluated_witness :
  let s := boot main_program in
  ∃ s' p,
    iterate (length (assemble thirty [])) s = Some s' ∧
    stack s' = stack s ++ [p] ∧
    heap s' !! p = Some (mkGCObject false (NumberObj (eval thirty))) ∧
    (∀ q, q ∈ stack s → heap s' !! q = heap s !! q) ∧
    printed (cout s') = printed (cout s).
Proof.
  apply (sum_is_evaluated thirty (boot main_program) [] (drop 3 main_program)).
  - apply (bool_decide_unpack _). vm_compute. exact I.
  - unfold ip_ok, INT_MAX. simpl. lia.
  - vm_compute. discriminate.
  - vm_compute. reflexivity.
  - reflexivity.
Defined.

(** ** A sum, printed *)

Lemma printed_snoc (out : list Line) (l : Line) :
  is_gc_line l = false → printed (out ++ [l]) = printed out ++ [l].
Proof.
  intros Hl. unfold printed. rewrite filter_app, filter_cons_True, filter_nil; [done|].
  rewrite Hl. intros [].
Qed.

Lemma exec_PRINT (s : State) (st : list ptr) (p : ptr) (o : GCObject) (v : Operand) :
  stack s = st ++ [p] →
  heap s !! p = Some o →
  exec (mkInstruction OP_PRINT v) s =
    Ok Break (with_cout (cout s ++ [LinePrint (payload o)]) (with_stack st s)).
Proof.
  intros Hst Hp. unfold exec. cbn [code].
  unfold bind at 1. rewrite (pop_snoc s st p Hst).
  unfold bind, print_obj, print_line, ret. simpl_state. by rewrite Hp.
Qed.

Lemma loop_body_HALT (s : State) (v : Operand) :
  bytecode s !! Z.to_nat (to_size_t (ip s)) = Some (mkInstruction OP_HALT v) →
  loop_body s = Ok Return (with_cout (cout s ++ [LineHalted]) s).
Proof. intros Hf. rewrite loop_body_unfold, Hf. reflexivity. Qed.

Lemma print_program_app (e : Expr) :
  print_program e =
    assemble e [] ++ [mkInstruction OP_PRINT (in_double 0);
                      mkInstruction OP_HALT (in_double 0)].
Proof. unfold print_program, emit. by rewrite <- app_assoc. Qed.

(** X9. The program that evaluates a sum of numbers, prints it and halts,
    run on a new machine: [run] returns, and what it has printed, reports
    of the collector aside, is the start line, the binary64 value of the
    sum and the halt line; the stack is empty and [ip] is at the
    [OP_HALT]. *)
Theorem print_program_prints_the_sum (e : Expr) :
  Z.of_nat (length (print_program e)) ≤ INT_MAX →
  ∃ s', run (boot (print_program e)) = Some (Ok tt s') ∧
    printed (cout s') =
      [LineStarted; LinePrint (NumberObj (eval e)); LineHalted] ∧
    stack s' = [] ∧
    ip s' = Z.of_nat (length (assemble e [])) + 1.
Proof.
  intros Hlen. unfold run, print_line.
  set (s0 := with_cout (cout (boot (print_program e)) ++ [LineStarted])
               (boot (print_program e))).
  set (print := mkInstruction OP_PRINT (in_double 0)).
  set (halt := mkInstruction OP_HALT (in_double 0)).
  assert (Hbc0 : bytecode s0 = [] ++ assemble e [] ++ [print; halt]).
  { simpl. apply print_program_app. }
  assert (Hok0 : ip_ok s0) by (unfold ip_ok, INT_MAX; simpl; lia).
  assert (Hsize0 : size s0 ≤ INT_MAX) by done.
  assert (Hinv0 : vm_inv s0) by apply vm_inv_new.
  destruct (assemble_steps e s0 [] [print; halt] Hinv0 Hok0 Hsize0 Hbc0)
    as (s1 & p & Hit1 & Hst1 & Hcell1 & _ & Hpr1 & Hinv1); [done|].
  destruct (iterate_frame _ _ _ Hok0 Hit1) as (Hip1 & Hbc1 & Hok1).
  (* OP_PRINT *)
  destruct (fetch_at s1 (assemble e []) [halt] print) as (Hin2 & Hf2 & Hmax2).
  { done. } { unfold size in *. by rewrite Hbc1. }
  { by rewrite Hbc1, Hbc0. } { rewrite Hip1. simpl. lia. }
  pose proof (exec_PRINT s1 [] p _ (in_double 0) Hst1 Hcell1) as Hprint.
  fold print in Hprint. cbn [payload] in Hprint.
  destruct (loop_body_finish s1 _ _ Hf2 Hprint) as (s2 & Hb2 & Hst2 & _ & Hpr2 & Hinv2).
  { apply vm_inv_cout, vm_inv_substack; [done|]. intros q Hq.
    by apply not_elem_of_nil in Hq. }
  { done. }
  simpl_state.
  assert (Hit2 : iterate (length (assemble e []) + 1) s0 = Some s2).
  { rewrite (iterate_add _ _ s0 s1 Hit1). by apply iterate_one. }
  destruct (iterate_frame _ _ _ Hok0 Hit2) as (Hip2 & Hbc2 & Hok2).
  (* OP_HALT *)
  destruct (fetch_at s2 (assemble e [] ++ [print]) [] halt) as (Hin3 & Hf3 & _).
  { done. } { unfold size in *. by rewrite Hbc2. }
  { by rewrite Hbc2, Hbc0, <- app_assoc. }
  { rewrite Hip2, length_app. simpl. lia. }
  exists (with_cout (cout s2 ++ [LineHalted]) s2). split; [|split; [|split]].
  - assert (Hfuel : S (length (bytecode s0))
                    = (length (assemble e []) + 1 + 2)%nat).
    { rewrite Hbc0, app_nil_l, length_app. simpl. lia. }
    rewrite Hfuel. rewrite (run_loop_iterate _ 2 s0 s2 Hit2).
    cbn [run_loop]. rewrite Hin3, (loop_body_HALT s2 _ Hf3). done.
  - simpl_state. rewrite printed_snoc by done. rewrite Hpr2.
    rewrite printed_snoc by done. rewrite Hpr1. done.
  - done.
  - simpl_state. rewrite Hip2. simpl. lia.
Qed.

Lemma print_program_prints_the_sum_witness :
  ∃ s', run (boot (print_program thirty)) = Some (Ok tt s') ∧
    printed (cout s') =
      [LineStarted; LinePrint (NumberObj (eval thirty)); LineHalted] ∧
    stack s' = [] ∧
    ip s' = Z.of_nat (length (assemble thirty [])) + 1.
Proof.
  apply (print_program_prints_the_sum thirty). vm_compute. discriminate.
Defined.

(** ** Running a machine again *)





(** An exception of the [switch] leaves a state in which the same
    instruction throws the same exception again, whatever was printed. *)
Lemma exec_Throw_again (inst : Instruction) (s s' : State) (e : Exception) :
  exec inst s = Throw e s' →
  ∀ c, exec inst (with_cout c s') = Throw e (with_cout c s').
Proof.
  unfold exec. destruct (code inst); try done.
  - destruct (operand inst); try done; by intros [= <- <-].
  - destruct (operand inst); try done; by intros [= <- <-].
  - unfold bind at 1. pose proof (pop_spec s) as Hb.
    destruct (pop s) as [b s1| |]; [| |done].
    + destruct Hb as [Hs1 Hs1'].
      unfold bind at 1. pose proof (pop_spec s1) as Ha.
      destruct (pop s1) as [a s2| |]; [| |done].
      * unfold bind at 1. unfold number_value at 1.
        destruct (heap s2 !! a) as [[? [va|?]]|]; try done.
        unfold bind at 1. unfold number_value at 1.
        destruct (heap s2 !! b) as [[? [vb|?]]|]; done.
      * destruct Ha as (Hempty & -> & ->). intros [= <- <-] c.
        unfold bind at 1, pop. simpl_state. by rewrite Hempty.
    + destruct Hb as (Hempty & -> & ->). intros [= <- <-] c.
      unfold bind at 1, pop. simpl_state. by rewrite Hempty.
  - unfold bind at 1. pose proof (pop_spec s) as Hb.
    destruct (pop s) as [b s1| |]; [| |done].
    + unfold bind, print_obj, print_line, ret. destruct (heap s1 !! b); done.
    + destruct Hb as (Hempty & -> & ->). intros [= <- <-] c.
      unfold bind at 1, pop. simpl_state. by rewrite Hempty.
Qed.

Lemma run_loop_threw (fuel : nat) (s s' : State) (e : Exception) :
  run_loop fuel s = Some (Throw e s') →
  ∀ c, in_program (with_cout c s') = true ∧
       loop_body (with_cout c s') = Throw e (with_cout c s').
Proof.
  revert s. induction fuel as [|fuel IH]; intros s; cbn [run_loop]; [done|].
  destruct (in_program s) eqn:Hin; [|done].
  destruct (loop_body s) as [[|] s1|e1 s1|] eqn:Hb; try done.
  - apply IH.
  - intros [= <- <-] c. rewrite loop_body_unfold in Hb.
    destruct (bytecode s !! _) as [inst|] eqn:Hf; [|done].
    pose proof (exec_frame inst s) as Hframe.
    destruct (exec inst s) as [[|] s2|e2 s2|] eqn:He; [|done| |done].
    + case_decide; [done|]. destruct (Z.rem _ _ =? 0); [|done].
      destruct (collect _ _) as [[] ?|e3 ?|] eqn:Hc; [done| |done].
      by apply collect_no_throw in Hc.
    + injection Hb as <- <-. destruct Hframe as [Hip Hbc].
      split.
      * unfold in_program, size in *. simpl_state. by rewrite Hip, Hbc.
      * rewrite loop_body_unfold. simpl_state. rewrite Hip, Hbc, Hf.
        by rewrite (exec_Throw_again inst s _ _ He c).
Qed.

(** X11. An error is not recovered from: after a [run] that threw, [ip] is
    still at the instruction that failed, and another [run] throws the same
    exception at once, having printed the start line and nothing else. *)
Theorem run_again_throws_again (s s' : State) (e : Exception) :
  run s = Some (Throw e s') →
  run s' = Some (Throw e (with_cout (cout s' ++ [LineStarted]) s')).
Proof.
  unfold run at 1, print_line. intros Hrun.
  destruct (run_loop_threw _ _ _ _ Hrun (cout s' ++ [LineStarted])) as [Hin Hb].
  unfold run, print_line. cbn [run_loop]. by rewrite Hin, Hb.
Qed.

Lemma run_again_throws_again_witness :
  let s' := with_cout [LineStarted] (boot lone_add_program) in
  run s' = Some (Throw (runtime_error "Stack Underflow")
                   (with_cout (cout s' ++ [LineStarted]) s')).
Proof.
  apply (run_again_throws_again (boot lone_add_program)).
  vm_compute. reflexivity.
Defined.

(** ** Operands of the push instructions *)

(** X12. A push whose operand does not hold the alternative it reads
    ([OP_PUSH_NUM] without a [double], [OP_PUSH_STR] without a string, as
    when it is emitted with the one-argument [emit], which stores the
    [double] 0) makes [run] throw [std::bad_variant_access]: nothing is
    allocated or pushed, [ip] stays at the instruction. *)
Theorem push_with_wrong_operand_throws (s : State) (inst : Instruction) :
  in_program s = true →
  fetch s = Ok inst s →
  (code inst = OP_PUSH_NUM ∧ ∀ d, operand inst ≠ in_double d) ∨
  (code inst = OP_PUSH_STR ∧ ∀ t, operand inst ≠ in_string t) →
  run s = Some (Throw bad_variant_access (with_cout (cout s ++ [LineStarted]) s)).
Proof.
  intros Hin Hfetch Hbad. unfold run, print_line. cbn [run_loop].
  set (s1 := with_cout (cout s ++ [LineStarted]) s).
  assert (in_program s1 = true) as -> by done.
  unfold fetch in Hfetch. rewrite loop_body_unfold.
  change (bytecode s1) with (bytecode s). change (ip s1) with (ip s).
  destruct (bytecode s !! _) as [inst'|]; [|done]. injection Hfetch as ->.
  unfold exec. destruct Hbad as [[-> Hop]|[-> Hop]].
  - destruct (operand inst) as [d| |]; [by destruct (Hop d)|done..].
  - destruct (operand inst) as [|t|]; [done|by destruct (Hop t)|done].
Qed.

Lemma push_with_wrong_operand_throws_witness :
  let s := boot bare_push_str_program in
  run s = Some (Throw bad_variant_access (with_cout (cout s ++ [LineStarted]) s)).
Proof.
  apply (push_with_wrong_operand_throws (boot bare_push_str_program)
           (mkInstruction OP_PUSH_STR (in_double 0))).
  - vm_compute. reflexivity.
  - vm_compute. reflexivity.
  - right. split; [reflexivity|]. intros t. discriminate.
Defined.

(** ** What the collector never does *)

Lemma mark_payload (roots : list ptr) (h h' : gmap nat GCObject) :
  mark roots h = Some h' →
  ∀ p, payload <$> (h' !! p) = payload <$> (h !! p).
Proof.
  revert h. induction roots as [|r rest IH]; intros h; cbn [mark].
  - by intros [= <-].
  - destruct (decide (r = nullptr)); [apply IH|].
    destruct (h !! r) as [o|] eqn:Ho; [|done].
    intros Hm p. rewrite (IH _ Hm p). rewrite lookup_insert.
    case_decide as Hp; [|done]. subst p. by rewrite Ho.
Qed.

Lemma sweep_only_deletes (objs : list ptr) :
  ∀ (h h' : gmap nat GCObject) (kept : list ptr),
    sweep objs h = Some (kept, h') →
    kept `sublist_of` objs ∧
    ∀ p o', h' !! p = Some o' → payload <$> (h !! p) = Some (payload o').
Proof.
  induction objs as [|it rest IH]; intros h h' kept; cbn [sweep].
  - intros [= <- <-]. split; [done|]. intros p o' Hp. by rewrite Hp.
  - destruct (h !! it) as [o|] eqn:Ho; [|done].
    destruct (marked o); cbn [negb].
    + destruct (sweep rest _) as [[kept0 h0]|] eqn:Hs; [|done].
      intros [= <- <-]. destruct (IH _ _ _ Hs) as [Hsub Hpay].
      split; [by apply sublist_skip|]. intros p o' Hp.
      rewrite <- (Hpay p o' Hp). rewrite lookup_insert.
      case_decide as Hpi; [|done]. subst p. by rewrite Ho.
    + intros Hs. destruct (IH _ _ _ Hs) as [Hsub Hpay].
      split; [by apply sublist_cons|]. intros p o' Hp.
      pose proof (Hpay p o' Hp) as H. rewrite lookup_delete in H.
      case_decide; [done|]. done.
Qed.

(** X13. Whatever the roots and the state it is called in, a [collect]
    that completes only deletes objects and writes mark bits: the tracked
    vector afterwards is the one before with some pointers left out, in the
    same order; every object in the free store afterwards was there before,
    with the same payload; nothing is allocated and no [value] is
    written. *)
Theorem collect_only_deletes (roots : list ptr) (s s' : State) :
  collect roots s = Ok tt s' →
  objects s' `sublist_of` objects s ∧
  ∀ p o', heap s' !! p = Some o' →
    ∃ o, heap s !! p = Some o ∧ payload o = payload o'.
Proof.
  unfold collect. destruct (mark roots (heap s)) as [h1|] eqn:Hm; [|done].
  destruct (sweep (objects s) h1) as [[objs h2]|] eqn:Hs; [|done].
  intros [= <-]. simpl_state.
  destruct (sweep_only_deletes _ _ _ _ Hs) as [Hsub Hpay].
  split; [done|]. intros p o' Hp.
  pose proof (Hpay p o' Hp) as H. rewrite (mark_payload _ _ _ Hm p) in H.
  destruct (heap s !! p) as [o|]; [|done]. exists o. split; [done|].
  by injection H.
Qed.

Lemma collect_only_deletes_witness :
  let s := with_ip 5 (main_after 4) in
  let s' := main_after 5 in
  objects s' `sublist_of` objects s ∧
  ∀ p o', heap s' !! p = Some o' →
    ∃ o, heap s !! p = Some o ∧ payload o = payload o'.
Proof.
  apply (collect_only_deletes (stack (with_ip 5 (main_after 4)))
           (with_ip 5 (main_after 4)) (main_after 5)).
  vm_compute. reflexivity.
Defined.
